(** * XenianBot: the Danbooru and Translate command plugins

    A shallow embedding of [xenian_bot/commands/danbooru.py] and
    [xenian/bot/commands/translate.py], and the properties of the option
    extractor, the term filter, the direction string and the media batch
    loop.

    Python strings are sequences of code points.  A character is an
    [ascii], read as the code point of that number, so the development
    covers the texts over U+0000..U+00FF (Latin-1); the character classes
    below are the ones Python 3 uses on that range. *)

From Stdlib Require Import Ascii String List ZArith NArith Bool Lia.
From Stdlib Require Import Permutation DecimalString.
Import ListNotations.

Local Open Scope list_scope.
Local Open Scope bool_scope.

(* ================================================================== *)
(** * Strings *)

Definition str := list ascii.

(** A literal of the source. *)
Definition lit (s : string) : str := list_ascii_of_string s.

Definition str_eqb (a b : str) : bool :=
  if list_eq_dec ascii_dec a b then true else false.

(** Truth value of a string: [bool(s)]. *)
Definition nonempty (s : str) : bool :=
  match s with [] => false | _ :: _ => true end.

Module Char.

Definition code (c : ascii) : N := N_of_ascii c.

Definition between (lo hi : N) (c : ascii) : bool :=
  ((lo <=? code c) && (code c <=? hi))%N.

Definition has_code (n : N) (c : ascii) : bool := (code c =? n)%N.

(** [\d]: the decimal digits; below U+0100 these are 0-9. *)
Definition is_digit (c : ascii) : bool := between 48 57 c.

(** [A-Za-z0-9_]. *)
Definition is_ascii_word (c : ascii) : bool :=
  between 48 57 c || between 65 90 c || has_code 95 c || between 97 122 c.

(** [\w] of a str pattern: the alphanumeric code points and the
    underscore.  Below U+0100 the alphanumerics outside ASCII are
    U+00AA, U+00B2, U+00B3, U+00B5, U+00B9, U+00BA, U+00BC..U+00BE,
    U+00C0..U+00D6, U+00D8..U+00F6 and U+00F8..U+00FF. *)
Definition is_word (c : ascii) : bool :=
  is_ascii_word c
  || has_code 170 c || between 178 179 c || has_code 181 c || between 185 186 c
  || between 188 190 c
  || between 192 214 c || between 216 246 c || between 248 255 c.

(** [str.isspace]: what [str.strip()] removes.  Below U+0100:
    U+0009..U+000D, U+001C..U+0020, U+0085 and U+00A0. *)
Definition is_space (c : ascii) : bool :=
  between 9 13 c || between 28 32 c || has_code 133 c || has_code 160 c.

(** Lower case of one code point, as the pattern compiler and the
    matcher take it under [re.IGNORECASE]: A-Z and U+00C0..U+00DE
    (U+00D7 apart) move up by 32. *)
Definition lower (c : ascii) : ascii :=
  if between 65 90 c || between 192 214 c || between 216 222 c
  then ascii_of_N (code c + 32)
  else c.

Definition space : ascii := " "%char.
Definition underscore : ascii := "_"%char.

End Char.

(** [sep.join(parts)]. *)
Fixpoint join (sep : str) (parts : list str) : str :=
  match parts with
  | [] => []
  | [p] => p
  | p :: rest => p ++ sep ++ join sep rest
  end.

(** [text.split(c)] for a one-character separator [c]: the pieces between
    the occurrences of [c]; never the empty list. *)
Fixpoint split (c : ascii) (text : str) : list str :=
  match text with
  | [] => [[]]
  | x :: rest =>
      if Ascii.eqb x c then [] :: split c rest
      else match split c rest with
           | [] => [[x]]
           | piece :: pieces => (x :: piece) :: pieces
           end
  end.

(** [text.startswith(prefix)]. *)
Fixpoint startswith (prefix text : str) : bool :=
  match prefix, text with
  | [], _ => true
  | _ :: _, [] => false
  | p :: prefix', x :: text' => Ascii.eqb p x && startswith prefix' text'
  end.

Fixpoint drop_while (p : ascii -> bool) (s : str) : str :=
  match s with
  | [] => []
  | c :: rest => if p c then drop_while p rest else s
  end.

(** [s.strip()]: leading and trailing whitespace removed. *)
Definition strip (s : str) : str :=
  rev (drop_while Char.is_space (rev (drop_while Char.is_space s))).

(** [s.replace(' ', '_')]. *)
Definition replace_space_underscore (s : str) : str :=
  map (fun c => if Ascii.eqb c Char.space then Char.underscore else c) s.

(** [int(s)] for a run of decimal digits. *)
Definition digit_value (c : ascii) : Z := Z.of_N (Char.code c) - 48.

Definition int_of_digits (s : str) : Z :=
  fold_left (fun acc c => 10 * acc + digit_value c)%Z s 0%Z.

(** [str(z)] / ['{}'.format(z)] for an integer. *)
Definition str_of_int (z : Z) : str := lit (NilZero.string_of_int (Z.to_int z)).

(* ================================================================== *)
(** * The regular expressions of the two plugins

    A compiled pattern is modelled by its anchored matcher: the length of
    the match that starts at the first character of the input, if there is
    one.  No pattern of the source matches the empty string. *)

Module Re.

Definition matcher := str -> option nat.

(** The longest prefix whose characters are all in the class, and the
    rest. *)
Fixpoint span (cls : ascii -> bool) (s : str) : str * str :=
  match s with
  | [] => ([], [])
  | c :: rest =>
      if cls c then let (run, tail) := span cls rest in (c :: run, tail)
      else ([], s)
  end.

(** [cls+]: greedy, at least one character. *)
Definition plus (cls : ascii -> bool) : matcher :=
  fun s =>
    match fst (span cls s) with
    | [] => None
    | run => Some (length run)
    end.

(** A literal word under [re.IGNORECASE]: the rest of the input after
    it. *)
Fixpoint literal_ci (word text : str) : option str :=
  match word, text with
  | [], _ => Some text
  | _ :: _, [] => None
  | w :: word', c :: text' =>
      if Ascii.eqb (Char.lower c) (Char.lower w) then literal_ci word' text'
      else None
  end.

(** [pattern.match(s)] is not [None]. *)
Definition is_match (m : matcher) (s : str) : bool :=
  match m s with Some _ => true | None => false end.

(** [pattern.findall(s)]: the non-overlapping matches, scanning from the
    left.  [skip] counts the characters of the current match that are
    still to be passed over. *)
Fixpoint findall_from (m : matcher) (skip : nat) (s : str) : list str :=
  match s with
  | [] => []
  | _ :: rest =>
      match skip with
      | S k => findall_from m k rest
      | O =>
          match m s with
          | Some (S k) => firstn (S k) s :: findall_from m k rest
          | _ => findall_from m 0 rest
          end
      end
  end.

Definition findall (m : matcher) (s : str) : list str := findall_from m 0 s.

(** [pattern.sub('', s)]: every non-overlapping match removed. *)
Fixpoint sub_from (m : matcher) (skip : nat) (s : str) : str :=
  match s with
  | [] => []
  | c :: rest =>
      match skip with
      | S k => sub_from m k rest
      | O =>
          match m s with
          | Some (S k) => sub_from m k rest
          | _ => c :: sub_from m 0 rest
          end
      end
  end.

Definition sub_empty (m : matcher) (s : str) : str := sub_from m 0 s.

End Re.

(* ================================================================== *)
(** * Values, exceptions *)

(** The [type_] argument of the option extractor: [int] or [str]. *)
Inductive PyType := TInt | TStr.

(** What the extractor returns as the option's value. *)
Inductive Value :=
| VInt (z : Z)
| VStr (s : str).

(** [bool(v)] for an optional value ([None] is false). *)
Definition truthy (v : option Value) : bool :=
  match v with
  | None => false
  | Some (VInt z) => negb (z =? 0)%Z
  | Some (VStr s) => nonempty s
  end.

(** The exceptions of the option extractor: [IndexError] and [TypeError]
    of the interpreter, [re.error] of the pattern compiler. *)
Inductive Exn := IndexError | TypeError | re_error.

(** What a call comes to.  [Uncovered] is not an answer of the program:
    it marks a call that leaves the part of the pattern language this
    development describes, and nothing is stated about such a call. *)
Inductive result (A : Type) :=
| Return (a : A)
| Raise (e : Exn)
| Uncovered.
Arguments Return {A} a.
Arguments Raise {A} e.
Arguments Uncovered {A}.

Definition bind {A B} (r : result A) (k : A -> result B) : result B :=
  match r with
  | Return a => k a
  | Raise e => Raise e
  | Uncovered => Uncovered
  end.

Notation "' p <- r ;; k" := (bind r (fun p => k))
  (at level 61, p pattern, r at next level, right associativity).

(* ================================================================== *)
(** * Queries, posts, the chat and the network *)

(** The keyword arguments of [client.post_list].  Both callers build the
    dictionary with [limit] and [page] set, so [query.get('limit', 0)]
    never falls back to its default. *)
Record Query := {
  limit : Z;
  page : Z;
  tags : option str
}.

Definition set_limit (q : Query) (l : Z) : Query :=
  {| limit := l; page := page q; tags := tags q |}.
Definition set_page (q : Query) (p : Z) : Query :=
  {| limit := limit q; page := p; tags := tags q |}.
Definition set_tags (q : Query) (t : str) : Query :=
  {| limit := limit q; page := page q; tags := Some t |}.

(** A post of the image board: [post['id']],
    [post.get('large_file_url')], [post['source']]. *)
Record Post := {
  post_id : Z;
  large_file_url : option str;
  source : option str
}.

(** An [InputMediaPhoto] object.  [ident] is the identity of the object:
    the class defines no hash of its own, so a [set] tells two of them
    apart by identity, whatever their fields. *)
Record Media := {
  ident : nat;
  media : str;
  caption : str
}.

Definition same_object (a b : Media) : bool := Nat.eqb (ident a) (ident b).

Definition mem_object (m : Media) (l : list Media) : bool :=
  existsb (same_object m) l.

Inductive Action := TYPING | UPLOAD_PHOTO.

(** What one invocation does to the outside, in the order it does it. *)
Inductive Event :=
| ChatAction (action : Action)
| ReplyText (text : str)
| PostList (query : Query)
| SendMediaGroup (batch : list Media) (ok : bool)
| Head (item : Media) (status_code : Z)
| SendPhoto (item : Media) (ok : bool).

(** The collaborators.  A call that answers is given the number of
    answered calls made before it in the batch loop, so that the same
    request may be answered differently the next time.
    [send_media_group] and [send_photo] answer [false] when the platform
    raises [BadRequest]; a call that fails in another way (the network
    is down) ends the invocation and is not part of the model. *)
Record Env := {
  site_url : str;
  post_list : Query -> list Post;
  send_media_group : nat -> list Media -> bool;
  requests_head : nat -> str -> Z;
  send_photo : nat -> str -> str -> bool
}.

(** [list(set(a) - set(b))].  A set of objects hashed by identity is
    iterated in the order of its hash table, not in the order of
    insertion: the result holds the objects of [a] that are not in [b],
    in an order the program does not control. *)
Class PySet := {
  set_difference : list Media -> list Media -> list Media;
  set_difference_perm :
    forall a b,
      NoDup (map ident a) ->
      Permutation (set_difference a b)
                  (filter (fun m => negb (mem_object m b)) a)
}.

Inductive outcome :=
| Finished (events : list Event)
| Running (events : list Event).

Definition events_of (o : outcome) : list Event :=
  match o with Finished t => t | Running t => t end.

Definition after (start : list Event) (o : outcome) : outcome :=
  match o with
  | Finished t => Finished (start ++ t)
  | Running t => Running (start ++ t)
  end.

(* ================================================================== *)
(** * danbooru.py *)

Module Danbooru.

(** [non_alphanum = re.compile('[^\w_ ]+')]. *)
Definition non_alphanum_class (c : ascii) : bool :=
  negb (Char.is_word c || Ascii.eqb c Char.underscore
        || Ascii.eqb c Char.space).

Definition non_alphanum : Re.matcher := Re.plus non_alphanum_class.

(** [list(OrderedDict.fromkeys(terms))]: the keys in the order of their
    first insertion. *)
Definition OrderedDict_fromkeys (keys : list str) : list str :=
  fold_left
    (fun dict k => if existsb (str_eqb k) dict then dict else dict ++ [k])
    keys [].

Definition filter_terms (terms : list str) : list str :=
  let terms := map (fun term => Re.sub_empty non_alphanum term) terms in
  let terms := map (fun term => strip term) terms in
  let terms := map (fun term => replace_space_underscore term) terms in
  let terms :=
    filter (fun term => negb (Re.is_match non_alphanum term) && nonempty term)
           terms in
  OrderedDict_fromkeys terms.

(** ** Option extractor *)

(** [[ =:]]. *)
Definition is_sep (c : ascii) : bool :=
  Ascii.eqb c " " || Ascii.eqb c "=" || Ascii.eqb c ":".

(** ['{word}[ =:]+{type}+'] under [re.IGNORECASE], for a [word] of
    characters that stand for themselves.  The separator class shares no
    character with [\d] or [\w], so the greedy runs are the only way to
    match and no backtracking takes place. *)
Definition option_pattern (word : str) (cls : ascii -> bool) : Re.matcher :=
  fun s =>
    match Re.literal_ci word s with
    | None => None
    | Some rest =>
        let (seps, rest') := Re.span is_sep rest in
        let (val, _) := Re.span cls rest' in
        match seps, val with
        | _ :: _, _ :: _ => Some (length word + length seps + length val)
        | _, _ => None
        end
    end.

(** The characters that the pattern compiler does not read as
    themselves: [. ^ $ * + ? { } [ ] \ | ( )]. *)
Definition is_special (c : ascii) : bool :=
  existsb (Ascii.eqb c) (lit ".^$*+?{}[]\|()").

(** A name of plain characters: in a pattern it is a literal. *)
Definition plain (name : str) : bool :=
  forallb (fun c => negb (is_special c)) name.

(** A compiled pattern of the extractor: the characters a match starts
    with, the class of the value, and where the capturing groups lie in a
    match (start and length), in the order of their opening
    parentheses. *)
Record Pattern := {
  word : str;
  value_class : ascii -> bool;
  groups : list (nat * nat)
}.

Definition matcher (p : Pattern) : Re.matcher :=
  option_pattern (word p) (value_class p).

(** The option name is put into the pattern as it is, so the compiler
    reads it as a pattern of its own.  Covered here: names of plain
    characters and parentheses.  A parenthesis opens or closes a capturing
    group, which leaves the matches as they are; [open] is the start of
    the group that is open, if one is.  A closing parenthesis without
    group and a group that is not closed are errors of the compiler.  A
    group inside a group is not covered. *)
Fixpoint compile_name (name : str) (chars : str) (open : option nat)
                      (closed : list (nat * nat)) (cls : ascii -> bool)
  : result Pattern :=
  match name with
  | [] =>
      match open with
      | Some _ => Raise re_error
      | None =>
          Return {| word := chars; value_class := cls; groups := closed |}
      end
  | c :: rest =>
      if Ascii.eqb c "(" then
        match open with
        | Some _ => Uncovered
        | None => compile_name rest chars (Some (length chars)) closed cls
        end
      else if Ascii.eqb c ")" then
        match open with
        | Some start =>
            compile_name rest chars None
                         (closed ++ [(start, length chars - start)]) cls
        | None => Raise re_error
        end
      else compile_name rest (chars ++ [c]) open closed cls
  end.

(** [re.compile('{name}[ =:]+{type}+'.format(...), re.IGNORECASE)].
    A name with another special character than a parenthesis is not
    covered. *)
Definition re_compile (name : str) (cls : ascii -> bool) : result Pattern :=
  if forallb (fun c => negb (is_special c) || Ascii.eqb c "("
                       || Ascii.eqb c ")") name
  then compile_name name [] None [] cls
  else Uncovered.

(** An item of the list that [findall] returns: a string, or a tuple of
    strings. *)
Inductive Found :=
| FoundStr (s : str)
| FoundTuple (parts : list str).

Definition group_text (m : str) (g : nat * nat) : str :=
  firstn (snd g) (skipn (fst g) m).

(** [page_pattern.findall(text)]: for every match the match itself when
    the pattern has no group, the text of the group when it has one, the
    tuple of the texts of the groups when it has more. *)
Definition found (p : Pattern) (m : str) : Found :=
  match groups p with
  | [] => FoundStr m
  | [g] => FoundStr (group_text m g)
  | gs => FoundTuple (map (group_text m) gs)
  end.

Definition findall (p : Pattern) (text : str) : list Found :=
  map (found p) (Re.findall (matcher p) text).

(** [re.findall('\d+', s)]. *)
Definition digit_runs (s : str) : list str :=
  Re.findall (Re.plus Char.is_digit) s.

Definition type_class (t : PyType) : ascii -> bool :=
  match t with
  | TInt => Char.is_digit
  | TStr => Char.is_word
  end.

(** [re.findall] on a tuple raises [TypeError], and the first item of an
    empty list of digit runs raises [IndexError]. *)
Definition extract_option_from_string
    (name text : str) (type_ : option PyType)
  : result (str * option Value) :=
  let type_ := match type_ with Some t => t | None => TStr end in
  ' page_pattern <- re_compile name (type_class type_) ;;
  let match_ := findall page_pattern text in
  match match_ with
  | [] => Return (text, None)
  | match_0 :: _ =>
      let text := Re.sub_empty (matcher page_pattern) text in
      match match_0 with
      | FoundTuple _ => Raise TypeError
      | FoundStr match_0 =>
          match digit_runs match_0 with
          | [] => Raise IndexError
          | out :: _ =>
              match type_ with
              | TInt => Return (text, Some (VInt (int_of_digits out)))
              | TStr => Return (text, Some (VStr out))
              end
          end
      end
  end.

(** ** Media batch sender *)

(** The build phase: one [InputMediaPhoto] per post with an HTTP url,
    created in the order of the posts. *)
Definition image_url_of (site : str) (post : Post) : option str :=
  match large_file_url post with
  | Some (c :: u) => Some (site ++ c :: u)
  | _ => source post
  end.

Definition usable (image_url : option str) : bool :=
  match image_url with
  | Some u => nonempty u && startswith (lit "http") u
  | None => false
  end.

Fixpoint build (site : str) (posts : list Post) (next : nat)
               (errors : nat) (media_list : list Media)
  : nat * list Media :=
  match posts with
  | [] => (errors, media_list)
  | post :: rest =>
      match image_url_of site post with
      | Some image_url =>
          if usable (Some image_url) then
            build site rest (S next) errors
              (media_list ++
               [{| ident := next;
                   media := image_url;
                   caption := site ++ lit "/posts/"
                                   ++ str_of_int (post_id post) |}])
          else build site rest next (S errors) media_list
      | None => build site rest next (S errors) media_list
      end
  end.

Record LoopState := {
  media_list : list Media;
  errors : nat;
  clock : nat;
  trace : list Event
}.

Definition log (st : LoopState) (evs : list Event) : LoopState :=
  {| media_list := media_list st; errors := errors st;
     clock := clock st; trace := trace st ++ evs |}.

Definition tick (st : LoopState) : LoopState :=
  {| media_list := media_list st; errors := errors st;
     clock := S (clock st); trace := trace st |}.

Definition count_error (st : LoopState) : LoopState :=
  {| media_list := media_list st; errors := S (errors st);
     clock := clock st; trace := trace st |}.

Definition with_media_list (st : LoopState) (l : list Media) : LoopState :=
  {| media_list := l; errors := errors st;
     clock := clock st; trace := trace st |}.

(** [status_code > 399 or status_code < 200]. *)
Definition bad_status (status_code : Z) : bool :=
  (status_code >? 399)%Z || (status_code <? 200)%Z.

Section Loop.

Context {py_set : PySet}.
Variable env : Env.

(** [for index, media in enumerate(media_list[:10])]: the probes of
    the [except BadRequest] branch. *)
Fixpoint probe_batch (batch : list Media) (st : LoopState)
                     (error_list : list Media)
  : LoopState * list Media :=
  match batch with
  | [] => (st, error_list)
  | m :: rest =>
      let status_code := requests_head env (clock st) (media m) in
      let st := tick (log st [ChatAction TYPING; Head m status_code]) in
      if bad_status status_code
      then probe_batch rest (count_error st) (error_list ++ [m])
      else probe_batch rest st error_list
  end.

(** The body of [while media_list:]. *)
Definition loop_body (st : LoopState) : LoopState :=
  let st := log st [ChatAction UPLOAD_PHOTO] in
  if 1 <? length (media_list st) then
    let batch := firstn 10 (media_list st) in
    if send_media_group env (clock st) batch then
      with_media_list (tick (log st [SendMediaGroup batch true]))
                      (skipn 10 (media_list st))
    else
      let st := tick (log st [SendMediaGroup batch false]) in
      let (st, error_list) := probe_batch batch st [] in
      with_media_list st (set_difference (media_list st) error_list)
  else
    match media_list st with
    | [] => st
    | m :: rest =>
        let ok := send_photo env (clock st) (media m) (caption m) in
        let st := tick (log st [SendPhoto m ok]) in
        with_media_list (if ok then st else count_error st) rest
    end.

(** The state after at most [n] passes through the loop. *)
Fixpoint iterations (n : nat) (st : LoopState) : LoopState :=
  match n with
  | O => st
  | S n' =>
      match media_list st with
      | [] => st
      | _ :: _ => iterations n' (loop_body st)
      end
  end.

(** The loop with a bound on the passes: [None] when the pending list
    is not empty after [fuel] passes. *)
Definition while_media_list (fuel : nat) (st : LoopState)
  : option LoopState :=
  let st' := iterations fuel st in
  match media_list st' with
  | [] => Some st'
  | _ :: _ => None
  end.

Definition post_list_send_media_group (fuel : nat) (query : Query)
  : outcome :=
  let query :=
    if (limit query >? 100)%Z then set_limit query 100 else query in
  let posts := post_list env query in
  match posts with
  | [] =>
      Finished [PostList query;
                ReplyText (lit "Nothing found on page "
                           ++ str_of_int (page query))]
  | _ :: _ =>
      let (errors0, media_list0) := build (site_url env) posts 0 0 [] in
      let st := {| media_list := media_list0; errors := errors0;
                   clock := 0; trace := [PostList query] |} in
      match while_media_list fuel st with
      | None => Running (trace (iterations fuel st))
      | Some st =>
          Finished
            (trace st ++
             if Nat.eqb (errors st) 0 then []
             else [ReplyText
                     (str_of_int (Z.of_nat (errors st))
                      ++ lit " of the request "
                      ++ str_of_int (limit query)
                      ++ lit " are not publicly available")])
      end
  end.

(** With [type_] [int] the extractor returns [None] or an integer;
    [if page:] keeps the default for [None] and for 0. *)
Definition int_option (v : option Value) : option Z :=
  match v with
  | Some (VInt z) => if truthy v then Some z else None
  | _ => None
  end.

Definition with_options (query : Query) (page_ limit_ : option Value)
  : Query :=
  let query :=
    match int_option page_ with
    | Some p => set_page query p
    | None => query
    end in
  match int_option limit_ with
  | Some l => set_limit query l
  | None => query
  end.

Definition search_danbooru (fuel : nat) (args : list str)
  : result outcome :=
  let start := [ChatAction TYPING] in
  let query := {| limit := 5; page := 0; tags := None |} in
  let text := join (lit " ") args in
  if negb (nonempty text) then
    Return (Finished
              (start ++
               [ReplyText (lit "You have to give me at least one tag.")]))
  else
    ' (text, page_) <-
        extract_option_from_string (lit "page") text (Some TInt) ;;
    ' (text, limit_) <-
        extract_option_from_string (lit "limit") text (Some TInt) ;;
    let query := with_options query page_ limit_ in
    let terms := split ","%char text in
    let terms := filter_terms terms in
    let tags_ := join (lit " ") (firstn 2 terms) in
    let query := set_tags query tags_ in
    let warn :=
      if 2 <? length terms
      then [ReplyText
              (lit "Only 2 tags per search supported, searching for "
               ++ tags_)]
      else [] in
    Return (after (start ++ warn)
                  (post_list_send_media_group fuel query)).

Definition latest (fuel : nat) (args : list str) : result outcome :=
  let start := [ChatAction TYPING] in
  let query := {| limit := 5; page := 0; tags := None |} in
  let text := join (lit " ") args in
  ' (text, page_) <-
      extract_option_from_string (lit "page") text (Some TInt) ;;
  ' (text, limit_) <-
      extract_option_from_string (lit "limit") text (Some TInt) ;;
  let query := with_options query page_ limit_ in
  Return (after start (post_list_send_media_group fuel query)).

End Loop.

End Danbooru.

(* ================================================================== *)
(** * translate.py *)

Module Translate.

(** [googletrans.models.Translated]. *)
Record Translated := {
  src : str;
  dest : str;
  translated_text : str
}.

(** The incoming message: its text, and the text of the message it
    replies to, when it replies to one (a message without text has
    [None] there). *)
Record Message := {
  text : str;
  reply_to_message : option (option str)
}.

Inductive Event :=
| ReplyText (reply : str)
| ReplyMarkdown (reply : str)
| TranslatorTranslate (text : option str) (direction : str).

(** [bool(s)] for a string that may be [None]. *)
Definition given (s : option str) : bool :=
  match s with
  | Some (_ :: _) => true
  | _ => false
  end.

(** The string a format field shows for a given code. *)
Definition shown (s : option str) : str :=
  match s with
  | Some s => s
  | None => lit "None"
  end.

(** [text.split(' ', 1)]: what follows the first space, when there is
    one. *)
Fixpoint after_first_space (s : str) : option str :=
  match s with
  | [] => None
  | c :: rest =>
      if Ascii.eqb c Char.space then Some rest else after_first_space rest
  end.

(** A command either goes on with a value or has returned. *)
Inductive flow (A : Type) :=
| Continue (a : A)
| Returned (events : list Event).
Arguments Continue {A} a.
Arguments Returned {A} events.

Section Commands.

(** [xenian.bot.utils.get_option_from_string], which is not part of
    these sources: the value of the option, if the text has it, and
    the text without the option. *)
Variable get_option_from_string : str -> str -> option str * str.

(** [code in googletrans.constants.LANGUAGES]. *)
Variable LANGUAGES : str -> bool.

(** [Translator().translate(text, direction)]. *)
Variable translator_translate : option str -> str -> Translated.

Definition direction_of (lang_from lang_to : option str) : str :=
  if given lang_from && negb (given lang_to) then
    shown lang_from ++ lit "-en"
  else if given lang_from && given lang_to then
    shown lang_from ++ lit "-" ++ shown lang_to
  else if negb (given lang_from) && given lang_to then
    shown lang_to
  else lit "en".

Definition translate_text (text : option str)
                          (lang_from lang_to : option str)
  : list Event * Translated :=
  let direction := direction_of lang_from lang_to in
  ([TranslatorTranslate text direction],
   translator_translate text direction).

Definition not_available (code : option str) : list Event :=
  [ReplyText (lit "Given language (`" ++ shown code
              ++ lit "`) is not available")].

(** The [if secondary_text:] block: the two language options, the
    text without them and the primary text. *)
Definition read_options (primary_text secondary_text : option str)
  : flow (option str * option str * option str * option str) :=
  if given secondary_text then
    let (translate_from, new_text) :=
      get_option_from_string (lit "lf") (shown secondary_text) in
    if given translate_from && negb (LANGUAGES (shown translate_from))
    then Returned (not_available translate_from)
    else
      let secondary_text :=
        if given translate_from then Some new_text else secondary_text in
      let (translate_to, new_text) :=
        get_option_from_string (lit "lt") (shown secondary_text) in
      if given translate_to && negb (LANGUAGES (shown translate_to))
      then Returned (not_available translate_to)
      else
        let secondary_text :=
          if given translate_to then Some new_text else secondary_text in
        let translate_to :=
          if given translate_to then translate_to else Some (lit "en") in
        let primary_text :=
          if given primary_text then primary_text else secondary_text in
        Continue (primary_text, secondary_text,
                  translate_from, translate_to)
  else Continue (primary_text, secondary_text, None, None).

Definition translate (message : Message) : list Event :=
  let primary_text :=
    match reply_to_message message with
    | Some reply_text => reply_text
    | None => None
    end in
  let secondary_text := after_first_space (text message) in
  match read_options primary_text secondary_text with
  | Returned events => events
  | Continue (primary_text, secondary_text, translate_from, translate_to) =>
      if negb (given primary_text) && negb (given secondary_text) then
        [ReplyText
           (lit "You either have to reply to a message or give me some text.")]
      else
        let (events, translated) :=
          translate_text primary_text translate_from translate_to in
        let reply :=
          lit "*TRANSLATION*: `"
          ++ (src translated ++ lit " -> " ++ dest translated)
          ++ lit "`" ++ ["010"%char; "010"%char]
          ++ translated_text translated in
        events ++ [ReplyMarkdown reply]
  end.

End Commands.

(** ** What the properties are stated with *)

(** The backend is called once, with this text and this direction. *)
Definition uses_direction (translator_translate : option str -> str -> Translated)
           (text lang_from lang_to : option str) (direction : str) : Prop :=
  translate_text translator_translate text lang_from lang_to
  = ([TranslatorTranslate text direction],
     translator_translate text direction).

(** A code that was not given, or one of the supported set. *)
Definition absent_or_supported (LANGUAGES : str -> bool) (code : option str)
  : Prop :=
  given code = false \/ LANGUAGES (shown code) = true.

(** A reader of [-name xx] at the head of the text, for two-letter codes;
    it stands for [get_option_from_string] in the examples. *)
Definition leading_flag (name text : str) : option str * str :=
  if startswith (lit "-" ++ name ++ lit " ") text
  then (Some (firstn 2 (skipn (length name + 2) text)),
        skipn (length name + 5) text)
  else (None, text).

Definition three_languages (code : str) : bool :=
  str_eqb code (lit "en") || str_eqb code (lit "fr")
  || str_eqb code (lit "de").

Definition echo (text : option str) (direction : str) : Translated :=
  {| src := lit "auto"; dest := direction; translated_text := shown text |}.

(** [reply_to_message.text], when the message is a reply. *)
Definition replied_text (message : Message) : option str :=
  match reply_to_message message with
  | Some reply_text => reply_text
  | None => None
  end.

(** The reply that shows a translation. *)
Definition answer (translated : Translated) : str :=
  lit "*TRANSLATION*: `"
  ++ (src translated ++ lit " -> " ++ dest translated)
  ++ lit "`" ++ ["010"%char; "010"%char]
  ++ translated_text translated.

End Translate.

(* ================================================================== *)
(** * The term filter as the specification words it *)

Module Spec.

(** [[A-Za-z0-9_ ]]. *)
Definition ascii_keep (c : ascii) : bool :=
  Char.is_ascii_word c || Ascii.eqb c Char.space.

(** Word characters and the space. *)
Definition word_keep (c : ascii) : bool :=
  Char.is_word c || Ascii.eqb c Char.space.

(** Strip the characters outside the kept class, trim, put underscores
    for the spaces. *)
Definition normalize (keep : ascii -> bool) (term : str) : str :=
  replace_space_underscore (strip (filter keep term)).

(** Keep the first occurrence of every term, in order. *)
Fixpoint dedup (seen terms : list str) : list str :=
  match terms with
  | [] => []
  | t :: rest =>
      if existsb (str_eqb t) seen then dedup seen rest
      else t :: dedup (t :: seen) rest
  end.

Definition filter_terms (keep : ascii -> bool) (terms : list str)
  : list str :=
  dedup [] (filter nonempty (map (normalize keep) terms)).

(** All the characters of all the terms are ASCII. *)
Definition is_ascii (c : ascii) : bool := (Char.code c <? 128)%N.

Definition ascii_terms (terms : list str) : bool :=
  forallb (forallb is_ascii) terms.

End Spec.

Import Danbooru.

(* ================================================================== *)
(** * What the properties are stated with *)

Definition all_ascii : list ascii := map ascii_of_nat (seq 0 256).

(** A term that went through the three [map]s holds word characters
    only. *)
Definition clean (t : str) : Prop := Forall (fun c => Char.is_word c = true) t.

(** The next character, if any, is outside the class. *)
Definition stops (cls : ascii -> bool) (s : str) : Prop :=
  match s with
  | [] => True
  | c :: _ => cls c = false
  end.

(** No match starts at any of the first [n] positions. *)
Definition no_match_before (m : Re.matcher) (n : nat) (s : str) : Prop :=
  forall i, i < n -> m (skipn i s) = None.

Definition same_word (a b : str) : Prop := map Char.lower a = map Char.lower b.

(** The text with its first match removed and nothing else. *)
Fixpoint remove_first (m : Re.matcher) (s : str) : str :=
  match s with
  | [] => []
  | c :: rest =>
      match m s with
      | Some (S k) => skipn k rest
      | _ => c :: remove_first m rest
      end
  end.

Definition kind (type_ : option PyType) : PyType :=
  match type_ with Some t => t | None => TStr end.

Definition digit_free (s : str) : bool :=
  forallb (fun c => negb (Char.is_digit c)) s.

(** The items of a send attempt. *)
Definition attempted (e : Event) : list Media :=
  match e with
  | SendMediaGroup batch _ => batch
  | SendPhoto m _ => [m]
  | _ => []
  end.

(** The items of the send attempts of a trace, in the order of the
    attempts. *)
Definition sends (t : list Event) : list Media := flat_map attempted t.

(** The probes of a trace: item and status, in order. *)
Definition probe_of (e : Event) : list (Media * Z) :=
  match e with
  | Head m status_code => [(m, status_code)]
  | _ => []
  end.

Definition heads (t : list Event) : list (Media * Z) := flat_map probe_of t.

Definition bad_probe (p : Media * Z) : bool := bad_status (snd p).

(** No multi-item send of the trace was rejected. *)
Definition accepted (e : Event) : bool :=
  match e with
  | SendMediaGroup _ false => false
  | _ => true
  end.

(** What was logged between two states of one run. *)
Definition since (st st' : LoopState) : list Event :=
  skipn (length (trace st)) (trace st').

Definition distinct (l : list Media) : Prop := NoDup (map ident l).

(** A set that happens to iterate in the order of insertion. *)
Definition insertion_order : PySet :=
  {| set_difference :=
       fun a b => filter (fun m => negb (mem_object m b)) a;
     set_difference_perm := fun a b _ => Permutation_refl _ |}.

(** A set that happens to iterate in the opposite order. *)
Definition reverse_order : PySet :=
  {| set_difference :=
       fun a b => rev (filter (fun m => negb (mem_object m b)) a);
     set_difference_perm :=
       fun a b _ => Permutation_sym (Permutation_rev _) |}.

Definition danbooru_url : str := lit "https://danbooru.donmai.us".

(** Post number [n], with a large file on the site. *)
Definition post_number (n : nat) : Post :=
  {| post_id := Z.of_nat n;
     large_file_url :=
       Some (lit "/data/" ++ str_of_int (Z.of_nat n) ++ lit ".jpg");
     source := None |}.

Definition item_number (n : nat) : Media :=
  {| ident := n;
     media := danbooru_url ++ lit "/data/" ++ str_of_int (Z.of_nat n)
                           ++ lit ".jpg";
     caption := danbooru_url ++ lit "/posts/" ++ str_of_int (Z.of_nat n) |}.

(** The platform rejects every media group, and every url answers 200. *)
Definition rejecting_env : Env :=
  {| site_url := danbooru_url;
     post_list := fun _ => map post_number (seq 0 2);
     send_media_group := fun _ _ => false;
     requests_head := fun _ _ => 200%Z;
     send_photo := fun _ _ _ => true |}.

(** Twenty-two posts; the file of post 0 is gone (404) and the platform
    rejects a media group that holds it. *)
Definition dead_link_env : Env :=
  {| site_url := danbooru_url;
     post_list := fun _ => map post_number (seq 0 22);
     send_media_group := fun _ batch => negb (mem_object (item_number 0) batch);
     requests_head :=
       fun _ url => if str_eqb url (media (item_number 0)) then 404%Z
                    else 200%Z;
     send_photo := fun _ _ _ => true |}.

Definition default_query : Query := {| limit := 5; page := 0; tags := None |}.

(** The claim of C2 on a run: whenever an item is in a send attempt, the
    items collected before it that are sent at all were in an attempt
    before. *)
Definition in_collected_order (built : list Media) (t : list Event) : Prop :=
  forall pre i mid j post a b,
    map ident built = pre ++ i :: mid ++ j :: post ->
    map ident (sends t) = a ++ j :: b ->
    In i (a ++ j :: b) ->
    In i a.

Definition clamp (query : Query) : Query :=
  if (limit query >? 100)%Z then set_limit query 100 else query.

Definition built_list (env : Env) (query : Query) : list Media :=
  snd (build (site_url env) (post_list env (clamp query)) 0 0 []).

Definition twelve_pending : LoopState :=
  {| media_list := map item_number (seq 0 12);
     errors := 0; clock := 0; trace := [] |}.

(** The queries the image board was called with. *)
Definition backend_call (e : Event) : list Query :=
  match e with
  | PostList q => [q]
  | _ => []
  end.

Definition backend_calls (t : list Event) : list Query :=
  flat_map backend_call t.

(** Every url is fine and the platform takes every send. *)
Definition friendly_env : Env :=
  {| site_url := danbooru_url;
     post_list := fun _ => map post_number (seq 0 23);
     send_media_group := fun _ _ => true;
     requests_head := fun _ _ => 200%Z;
     send_photo := fun _ _ _ => true |}.

(** ** More to state properties with *)

(** The text has none of the separators [ =:]. *)
Definition sep_free (s : str) : bool :=
  forallb (fun c => negb (is_sep c)) s.

(** The matches a call of the extractor looks at: those of the compiled
    pattern. *)
Definition occurrences (name text : str) (type_ : option PyType) : list str :=
  match re_compile name (type_class (kind type_)) with
  | Return page_pattern => Re.findall (matcher page_pattern) text
  | _ => []
  end.

(** What the three [map]s of [filter_terms] make of one term. *)
Definition normal_form (term : str) : str :=
  replace_space_underscore (strip (Re.sub_empty non_alphanum term)).

(** The state in which [post_list_send_media_group] enters its loop. *)
Definition start_state (env : Env) (query : Query) : LoopState :=
  {| media_list := built_list env query;
     errors := fst (build (site_url env) (post_list env (clamp query)) 0 0 []);
     clock := 0;
     trace := [PostList (clamp query)] |}.

(** The items of a send the platform took. *)
Definition delivered_by (e : Event) : list Media :=
  match e with
  | SendMediaGroup batch true => batch
  | SendPhoto m true => [m]
  | _ => []
  end.

Definition delivered (t : list Event) : list Media := flat_map delivered_by t.

(** A single photo the platform refused. *)
Definition refused (e : Event) : bool :=
  match e with
  | SendPhoto _ false => true
  | _ => false
  end.

(** The failures the loop counts: probes with a bad status and refused
    single photos. *)
Definition failures (t : list Event) : nat :=
  length (filter bad_probe (heads t)) + length (filter refused t).

(** The sizes Telegram takes for a media group. *)
Definition group_size_ok (e : Event) : Prop :=
  match e with
  | SendMediaGroup batch _ => 2 <= length batch <= 10
  | _ => True
  end.

(** An event of the probing of a batch. *)
Definition probing (e : Event) : Prop :=
  match e with
  | ChatAction _ | Head _ _ => True
  | _ => False
  end.

Definition is_reply (e : Event) : Prop := exists text, e = ReplyText text.

(** ['{} of the request {} are not publicly available'.format(...)]. *)
Definition availability_report (count : nat) (limit_ : Z) : str :=
  str_of_int (Z.of_nat count) ++ lit " of the request "
  ++ str_of_int limit_ ++ lit " are not publicly available".

(** Rejections have a cause the probes find: a rejected batch of built
    items holds an item whose url answers with a bad status, whenever it
    is asked. *)
Definition rejections_explained (env : Env) (built : list Media) : Prop :=
  forall c batch,
    incl batch built ->
    send_media_group env c batch = false ->
    exists m, In m batch
              /\ forall c', bad_status (requests_head env c' (media m)) = true.

(** A post the build phase counts as an error: no url, or one that does
    not start with http. *)
Definition unusable (site : str) (post : Post) : bool :=
  negb (usable (image_url_of site post)).

(** What the call says at its end, if anything. *)
Definition final_report (count : nat) (limit_ : Z) : list Event :=
  if Nat.eqb count 0 then []
  else [ReplyText (availability_report count limit_)].

(** An event of the batch loop. *)
Definition loop_event (e : Event) : Prop :=
  match e with
  | ReplyText _ | PostList _ => False
  | _ => True
  end.

(** What the call says when nothing can be sent. *)
Definition nothing_sent_reply (posts : list Post) (query : Query) : str :=
  match posts with
  | [] => lit "Nothing found on page " ++ str_of_int (page query)
  | _ :: _ => availability_report (length posts) (limit query)
  end.

(** One post without large file, whose source is not an http url. *)
Definition ftp_source_env : Env :=
  {| site_url := danbooru_url;
     post_list :=
       fun _ => [{| post_id := 7; large_file_url := None;
                    source := Some (lit "ftp://example.org/a") |}];
     send_media_group := fun _ _ => true;
     requests_head := fun _ _ => 200%Z;
     send_photo := fun _ _ _ => true |}.

(** What the extractor can return for kind [int]: nothing, or an integer
    that is not negative. *)
Definition natural_option (v : option Value) : Prop :=
  v = None \/ exists z, v = Some (VInt z) /\ (0 <= z)%Z.

(** Twelve posts; the platform rejects every media group, and every url
    answers 200. *)
Definition rejecting_twelve_env : Env :=
  {| site_url := danbooru_url;
     post_list := fun _ => map post_number (seq 0 12);
     send_media_group := fun _ _ => false;
     requests_head := fun _ _ => 200%Z;
     send_photo := fun _ _ _ => true |}.

(** What one pass logs when the group of items 0 to 9 is rejected and
    their urls answer 200. *)
Definition rejected_pass : list Event :=
  [ChatAction UPLOAD_PHOTO;
   SendMediaGroup (map item_number (seq 0 10)) false]
  ++ flat_map (fun m => [ChatAction TYPING; Head m 200%Z])
              (map item_number (seq 0 10)).

(** The run of [dead_link_env] with a set that iterates in reverse. *)
Definition dead_link_run : outcome :=
  @post_list_send_media_group reverse_order dead_link_env 10 default_query.

(* ================================================================== *)
(** * Characters *)

Lemma ascii_cases (P : ascii -> bool) :
  forallb P all_ascii = true -> forall c, P c = true.
Proof.
  intros H c.
  rewrite forallb_forall in H. apply H.
  rewrite <- (ascii_nat_embedding c).
  apply in_map, in_seq.
  pose proof (nat_ascii_bounded c). lia.
Qed.

Ltac by_cases_on_ascii P :=
  let H := fresh in
  pose proof (ascii_cases P) as H;
  cbv beta in H; apply H; vm_compute; reflexivity.

Lemma word_not_space c :
  implb (Char.is_word c) (negb (Char.is_space c)) = true.
Proof.
  revert c.
  by_cases_on_ascii
    (fun c => implb (Char.is_word c) (negb (Char.is_space c))).
Qed.

Lemma word_not_blank c :
  implb (Char.is_word c) (negb (Ascii.eqb c Char.space)) = true.
Proof.
  revert c.
  by_cases_on_ascii
    (fun c => implb (Char.is_word c) (negb (Ascii.eqb c Char.space))).
Qed.

Lemma non_alphanum_class_keep c :
  negb (non_alphanum_class c) = Spec.word_keep c.
Proof.
  apply Bool.eqb_prop. revert c.
  by_cases_on_ascii
    (fun c => Bool.eqb (negb (non_alphanum_class c)) (Spec.word_keep c)).
Qed.


(* ================================================================== *)
(** * Regular expressions *)

Lemma span_app cls s :
  fst (Re.span cls s) ++ snd (Re.span cls s) = s.
Proof.
  induction s as [|c s IH]; simpl; [reflexivity|].
  destruct (cls c); [|reflexivity].
  destruct (Re.span cls s) as [run tail]; simpl in *. now rewrite IH.
Qed.

Lemma span_run cls s : forallb cls (fst (Re.span cls s)) = true.
Proof.
  induction s as [|c s IH]; simpl; [reflexivity|].
  destruct (cls c) eqn:E; [|reflexivity].
  destruct (Re.span cls s) as [run tail]; simpl in *. now rewrite E.
Qed.

Lemma span_tail cls s :
  match snd (Re.span cls s) with
  | [] => True
  | c :: _ => cls c = false
  end.
Proof.
  induction s as [|c s IH]; simpl; [exact I|].
  destruct (cls c) eqn:E; [|exact E].
  destruct (Re.span cls s) as [run tail]; simpl in *. exact IH.
Qed.

(** Removing the runs of a class with [sub] removes the characters of the
    class. *)
Lemma sub_from_plus cls s : forall skip,
  skip <= length (fst (Re.span cls s)) ->
  Re.sub_from (Re.plus cls) skip s = filter (fun c => negb (cls c)) s.
Proof.
  induction s as [|c s IH]; intros skip Hk; [reflexivity|].
  cbn [Re.sub_from filter].
  destruct skip as [|k].
  - unfold Re.plus at 1. cbn [Re.span]. destruct (cls c) eqn:E.
    + destruct (Re.span cls s) as [run tail] eqn:Es. cbn.
      apply IH. cbn. lia.
    + cbn. f_equal. apply IH. lia.
  - cbn [Re.span] in Hk. destruct (cls c) eqn:E.
    + destruct (Re.span cls s) as [run tail] eqn:Es. cbn in *.
      apply IH. cbn. lia.
    + cbn in Hk. lia.
Qed.

Lemma sub_empty_plus cls s :
  Re.sub_empty (Re.plus cls) s = filter (fun c => negb (cls c)) s.
Proof. apply sub_from_plus. lia. Qed.

Lemma is_match_plus cls s :
  Re.is_match (Re.plus cls) s =
  match s with [] => false | c :: _ => cls c end.
Proof.
  unfold Re.is_match, Re.plus.
  destruct s as [|c s]; simpl; [reflexivity|].
  destruct (cls c); [|reflexivity].
  now destruct (Re.span cls s).
Qed.

(* ================================================================== *)
(** * Term filter *)

Lemma str_eqb_eq a b : str_eqb a b = true <-> a = b.
Proof.
  unfold str_eqb. destruct (list_eq_dec ascii_dec a b); split; congruence.
Qed.

Lemma Forall_drop_while (P : ascii -> Prop) p s :
  Forall P s -> Forall P (drop_while p s).
Proof.
  induction 1 as [|c s Hc Hs IH]; simpl; [constructor|].
  destruct (p c); [exact IH|now constructor].
Qed.

Lemma Forall_strip (P : ascii -> Prop) s : Forall P s -> Forall P (strip s).
Proof.
  intros H. unfold strip.
  apply Forall_rev, Forall_drop_while, Forall_rev, Forall_drop_while, H.
Qed.

Lemma drop_while_none p s :
  Forall (fun c => p c = false) s -> drop_while p s = s.
Proof. destruct 1 as [|c s Hc Hs]; simpl; [reflexivity|now rewrite Hc]. Qed.

Lemma strip_none s :
  Forall (fun c => Char.is_space c = false) s -> strip s = s.
Proof.
  intros H. unfold strip.
  rewrite (drop_while_none _ s H).
  rewrite drop_while_none by now apply Forall_rev.
  apply rev_involutive.
Qed.

Lemma normalize_clean s : clean (Spec.normalize Spec.word_keep s).
Proof.
  unfold clean, Spec.normalize, replace_space_underscore.
  apply Forall_map.
  apply Forall_strip.
  apply Forall_forall. intros c Hc.
  apply filter_In in Hc. destruct Hc as [_ Hk].
  unfold Spec.word_keep in Hk.
  destruct (Ascii.eqb c Char.space) eqn:E; [reflexivity|].
  now rewrite orb_false_r in Hk.
Qed.

Lemma clean_fixed t : clean t -> Spec.normalize Spec.word_keep t = t.
Proof.
  intros H. unfold Spec.normalize.
  assert (Hf : filter Spec.word_keep t = t).
  { apply forallb_filter_id. apply forallb_forall. intros c Hc.
    unfold clean in H. rewrite Forall_forall in H.
    unfold Spec.word_keep. now rewrite (H c Hc). }
  rewrite Hf.
  rewrite strip_none.
  - unfold replace_space_underscore.
    rewrite <- (map_id t) at 2. apply map_ext_in. intros c Hc.
    unfold clean in H. rewrite Forall_forall in H.
    pose proof (word_not_blank c) as Hb. rewrite (H c Hc) in Hb. simpl in Hb.
    now destruct (Ascii.eqb c Char.space).
  - eapply Forall_impl; [|exact H]. intros c Hc. simpl in Hc.
    pose proof (word_not_space c) as Hs. rewrite Hc in Hs. simpl in Hs.
    now destruct (Char.is_space c).
Qed.

Lemma normalize_idempotent s :
  Spec.normalize Spec.word_keep (Spec.normalize Spec.word_keep s)
  = Spec.normalize Spec.word_keep s.
Proof. apply clean_fixed, normalize_clean. Qed.

(** The three [map]s of the source are the normalization. *)
Lemma maps_normalize term :
  replace_space_underscore (strip (Re.sub_empty non_alphanum term))
  = Spec.normalize Spec.word_keep term.
Proof.
  unfold Spec.normalize, non_alphanum. rewrite sub_empty_plus.
  do 2 f_equal. apply filter_ext. intros c. apply non_alphanum_class_keep.
Qed.

(** On a normalized term the pattern test of the [filter] never fires. *)
Lemma clean_no_match t : clean t -> Re.is_match non_alphanum t = false.
Proof.
  intros H. unfold non_alphanum. rewrite is_match_plus.
  destruct t as [|c t]; [reflexivity|].
  inversion H as [|? ? Hc _]; subst.
  unfold non_alphanum_class. now rewrite Hc.
Qed.

Lemma dedup_seen_ext terms : forall seen seen',
  (forall t, existsb (str_eqb t) seen = existsb (str_eqb t) seen') ->
  Spec.dedup seen terms = Spec.dedup seen' terms.
Proof.
  induction terms as [|t terms IH]; intros seen seen' H; simpl; [reflexivity|].
  rewrite <- (H t).
  destruct (existsb (str_eqb t) seen); [now apply IH|].
  f_equal. apply IH. intros u. simpl. now rewrite H.
Qed.

Lemma fromkeys_fold terms : forall dict,
  fold_left
    (fun dict k => if existsb (str_eqb k) dict then dict else dict ++ [k])
    terms dict
  = dict ++ Spec.dedup dict terms.
Proof.
  induction terms as [|t terms IH]; intros dict; simpl.
  - now rewrite app_nil_r.
  - rewrite IH. destruct (existsb (str_eqb t) dict); [reflexivity|].
    rewrite <- app_assoc. simpl. do 2 f_equal.
    apply dedup_seen_ext. intros u.
    rewrite existsb_app. simpl. rewrite orb_false_r. apply orb_comm.
Qed.

Lemma OrderedDict_fromkeys_dedup terms :
  OrderedDict_fromkeys terms = Spec.dedup [] terms.
Proof. unfold OrderedDict_fromkeys. now rewrite fromkeys_fold. Qed.

Lemma filter_terms_refines terms :
  filter_terms terms = Spec.filter_terms Spec.word_keep terms.
Proof.
  unfold filter_terms, Spec.filter_terms.
  rewrite OrderedDict_fromkeys_dedup. f_equal.
  rewrite !map_map.
  rewrite (map_ext _ _ maps_normalize).
  apply filter_ext_in. intros t Ht.
  apply in_map_iff in Ht. destruct Ht as (s & <- & _).
  now rewrite clean_no_match by apply normalize_clean.
Qed.

Lemma dedup_incl terms : forall seen t,
  In t (Spec.dedup seen terms) -> In t terms.
Proof.
  induction terms as [|u terms IH]; intros seen t; simpl; [tauto|].
  destruct (existsb (str_eqb u) seen); simpl; intros H.
  - right. eapply IH, H.
  - destruct H as [H|H]; [now left|right; eapply IH, H].
Qed.

Lemma dedup_fixed terms : forall seen,
  Spec.dedup seen (Spec.dedup seen terms) = Spec.dedup seen terms.
Proof.
  induction terms as [|t terms IH]; intros seen; simpl; [reflexivity|].
  destruct (existsb (str_eqb t) seen) eqn:E; [apply IH|].
  simpl. rewrite E. f_equal. apply IH.
Qed.

Lemma ascii_word_agree c :
  implb (Spec.is_ascii c) (Bool.eqb (Spec.word_keep c) (Spec.ascii_keep c)) = true.
Proof.
  revert c.
  by_cases_on_ascii
    (fun c => implb (Spec.is_ascii c)
                    (Bool.eqb (Spec.word_keep c) (Spec.ascii_keep c))).
Qed.

Lemma filter_terms_ascii terms :
  Spec.ascii_terms terms = true ->
  Spec.filter_terms Spec.word_keep terms = Spec.filter_terms Spec.ascii_keep terms.
Proof.
  intros H. unfold Spec.filter_terms. do 2 f_equal.
  apply map_ext_in. intros t Ht.
  unfold Spec.ascii_terms in H. rewrite forallb_forall in H.
  specialize (H t Ht). rewrite forallb_forall in H.
  unfold Spec.normalize. do 2 f_equal.
  apply filter_ext_in. intros c Hc.
  pose proof (ascii_word_agree c) as Ha. rewrite (H c Hc) in Ha. simpl in Ha.
  now apply Bool.eqb_prop.
Qed.

(** C6 (as amended).  [filter_terms] normalizes each term by stripping the
    characters that are neither word characters nor spaces, trimming,
    and replacing spaces with underscores, drops the empty terms and keeps
    the first occurrence of each term in order; on ASCII terms the kept
    class is [A-Za-z0-9_ ]; the example of the specification holds. *)
Theorem filter_terms_spec terms :
  filter_terms terms = Spec.filter_terms Spec.word_keep terms
  /\ (Spec.ascii_terms terms = true ->
      filter_terms terms = Spec.filter_terms Spec.ascii_keep terms)
  /\ filter_terms [lit "foo!"; lit "foo"; lit "  bar baz  "; lit ""]
     = [lit "foo"; lit "bar_baz"].
Proof.
  split; [apply filter_terms_refines|split].
  - intros H. rewrite filter_terms_refines. now apply filter_terms_ascii.
  - reflexivity.
Qed.

Lemma filter_terms_spec_witness :
  Spec.ascii_terms [lit "Foo bar!"; lit "x"; lit "Foo bar"] = true
  /\ filter_terms [lit "Foo bar!"; lit "x"; lit "Foo bar"]
     = Spec.filter_terms Spec.ascii_keep [lit "Foo bar!"; lit "x"; lit "Foo bar"].
Proof.
  split; [reflexivity|].
  apply (proj1 (proj2 (filter_terms_spec
                         [lit "Foo bar!"; lit "x"; lit "Foo bar"]))).
  reflexivity.
Defined.

(** C6 as stated fails on a letter outside ASCII: U+00E9 is a word
    character, the filter keeps it, and stripping everything outside
    [A-Za-z0-9_ ] would leave nothing. *)
Lemma filter_terms_keeps_latin_letter :
  filter_terms [["233"%char]] = [["233"%char]]
  /\ Spec.filter_terms Spec.ascii_keep [["233"%char]] = []
  /\ filter_terms [["233"%char]]
     <> Spec.filter_terms Spec.ascii_keep [["233"%char]].
Proof. split; [reflexivity|split; [reflexivity|discriminate]]. Qed.

(** C7.  The filter is idempotent. *)
Theorem filter_terms_idempotent x :
  filter_terms (filter_terms x) = filter_terms x.
Proof.
  rewrite !filter_terms_refines. unfold Spec.filter_terms.
  set (L := filter nonempty (map (Spec.normalize Spec.word_keep) x)).
  assert (HL : forall t, In t (Spec.dedup [] L) ->
                         Spec.normalize Spec.word_keep t = t /\ nonempty t = true).
  { intros t Ht. apply dedup_incl in Ht. unfold L in Ht.
    apply filter_In in Ht. destruct Ht as [Ht Hn]. split; [|exact Hn].
    apply in_map_iff in Ht. destruct Ht as (s & <- & _).
    apply normalize_idempotent. }
  assert (Hmap : map (Spec.normalize Spec.word_keep) (Spec.dedup [] L)
                 = Spec.dedup [] L).
  { rewrite <- (map_id (Spec.dedup [] L)) at 2.
    apply map_ext_in. intros t Ht. now apply HL. }
  rewrite Hmap.
  assert (Hfil : filter nonempty (Spec.dedup [] L) = Spec.dedup [] L).
  { apply forallb_filter_id. apply forallb_forall. intros t Ht. now apply HL. }
  rewrite Hfil. apply dedup_fixed.
Qed.


(* ================================================================== *)
(** * Matches and scans *)

Lemma span_exact cls run rest :
  forallb cls run = true -> stops cls rest ->
  Re.span cls (run ++ rest) = (run, rest).
Proof.
  intros Hrun Hrest. induction run as [|c run IH]; simpl in *.
  - destruct rest as [|c rest]; [reflexivity|]. simpl in *. now rewrite Hrest.
  - apply andb_prop in Hrun. destruct Hrun as [Hc Hrun].
    rewrite Hc, (IH Hrun). reflexivity.
Qed.

Lemma plus_exact cls run rest :
  run <> [] -> forallb cls run = true -> stops cls rest ->
  Re.plus cls (run ++ rest) = Some (length run).
Proof.
  intros Hne Hrun Hrest. unfold Re.plus.
  rewrite (span_exact _ _ _ Hrun Hrest). simpl.
  destruct run; [contradiction|reflexivity].
Qed.

Lemma plus_none cls c s : cls c = false -> Re.plus cls (c :: s) = None.
Proof. intros H. unfold Re.plus. simpl. now rewrite H. Qed.

(** ** Scanning *)

Lemma findall_from_skip m a : forall b,
  Re.findall_from m (length a) (a ++ b) = Re.findall_from m 0 b.
Proof. induction a as [|c a IH]; intros b; simpl; [now destruct b|apply IH]. Qed.

Lemma sub_from_skip m a : forall b,
  Re.sub_from m (length a) (a ++ b) = Re.sub_from m 0 b.
Proof. induction a as [|c a IH]; intros b; simpl; [now destruct b|apply IH]. Qed.

Lemma no_match_before_tail m n c s :
  no_match_before m (S n) (c :: s) -> no_match_before m n s.
Proof. intros H i Hi. apply (H (S i)). lia. Qed.

(** The first match and what the scan does after it. *)
Lemma scan_first_match m pre mt post :
  mt <> [] ->
  m (mt ++ post) = Some (length mt) ->
  no_match_before m (length pre) (pre ++ mt ++ post) ->
  Re.findall m (pre ++ mt ++ post) = mt :: Re.findall m post
  /\ Re.sub_empty m (pre ++ mt ++ post) = pre ++ Re.sub_empty m post.
Proof.
  intros Hne Hm. unfold Re.findall, Re.sub_empty.
  induction pre as [|c pre IH]; intros Hpre.
  - destruct mt as [|c mt]; [contradiction|]. simpl app.
    cbn [Re.findall_from Re.sub_from]. simpl app in Hm. rewrite Hm.
    cbn [length]. rewrite findall_from_skip, sub_from_skip.
    split; [|reflexivity].
    f_equal. change (c :: mt ++ post) with ((c :: mt) ++ post).
    change (S (length mt)) with (length (c :: mt)).
    rewrite firstn_app, firstn_all, Nat.sub_diag. simpl. now rewrite app_nil_r.
  - simpl app. cbn [Re.findall_from Re.sub_from].
    pose proof (Hpre 0 ltac:(simpl; lia)) as H0. simpl in H0. rewrite H0.
    destruct (IH (no_match_before_tail _ _ _ _ Hpre)) as [IH1 IH2].
    rewrite IH1, IH2. split; reflexivity.
Qed.

Lemma sub_without_match m s :
  Re.findall m s = [] -> Re.sub_empty m s = s.
Proof.
  unfold Re.findall, Re.sub_empty.
  induction s as [|c s IH]; [reflexivity|].
  cbn [Re.findall_from Re.sub_from].
  destruct (m (c :: s)) as [[|k]|]; intros H; try discriminate;
    now rewrite (IH H).
Qed.

(** Every match that [findall] returns is a match of the pattern at some
    position of the text. *)
Lemma findall_from_matches m x s : forall skip,
  In x (Re.findall_from m skip s) ->
  exists s' k, m s' = Some (S k) /\ x = firstn (S k) s'.
Proof.
  induction s as [|c s IH]; intros skip H; [contradiction|].
  cbn [Re.findall_from] in H. destruct skip as [|n]; [|eapply IH, H].
  destruct (m (c :: s)) as [[|k]|] eqn:E; try (eapply IH, H).
  destruct H as [<-|H]; [|eapply IH, H].
  now exists (c :: s), k.
Qed.

(** ** Digits *)


Lemma digit_runs_some s :
  existsb Char.is_digit s = true -> digit_runs s <> [].
Proof.
  unfold digit_runs, Re.findall.
  induction s as [|c s IH]; [discriminate|]. simpl existsb. intros H.
  cbn [Re.findall_from].
  destruct (Re.plus Char.is_digit (c :: s)) as [[|k]|] eqn:E; try discriminate.
  - unfold Re.plus in E. simpl in E.
    destruct (Char.is_digit c); [|discriminate].
    now destruct (Re.span Char.is_digit s).
  - unfold Re.plus in E. simpl in E.
    destruct (Char.is_digit c) eqn:Ec.
    + now destruct (Re.span Char.is_digit s).
    + simpl in H. now apply IH.
Qed.

Lemma digit_runs_first a ds b :
  forallb (fun c => negb (Char.is_digit c)) a = true ->
  ds <> [] -> forallb Char.is_digit ds = true -> stops Char.is_digit b ->
  digit_runs (a ++ ds ++ b) = ds :: digit_runs b.
Proof.
  intros Ha Hne Hds Hb. unfold digit_runs.
  apply scan_first_match; [exact Hne|now apply plus_exact|].
  intros i Hi. rewrite forallb_forall in Ha.
  rewrite skipn_app. replace (i - length a) with 0 by lia. simpl skipn.
  destruct (skipn i a) as [|c r] eqn:E.
  - apply (f_equal (@length _)) in E. rewrite length_skipn in E. simpl in E. lia.
  - simpl. apply plus_none.
    assert (Hin : In c a).
    { rewrite <- (firstn_skipn i a), E. apply in_or_app. right. now left. }
    specialize (Ha c Hin). now destruct (Char.is_digit c).
Qed.

(* ================================================================== *)
(** * Option pattern *)

Lemma literal_ci_exact name : forall name' rest,
  same_word name' name -> Re.literal_ci name (name' ++ rest) = Some rest.
Proof.
  unfold same_word.
  induction name as [|w name IH]; intros [|c name'] rest H; try discriminate.
  - reflexivity.
  - simpl in *. injection H as Hc H.
    rewrite Hc, Ascii.eqb_refl. now apply IH.
Qed.

Lemma literal_ci_sound name : forall s rest,
  Re.literal_ci name s = Some rest ->
  exists name', s = name' ++ rest /\ length name' = length name.
Proof.
  induction name as [|w name IH]; intros s rest H; simpl in H.
  - injection H as <-. now exists [].
  - destruct s as [|c s]; [discriminate|].
    destruct (Ascii.eqb (Char.lower c) (Char.lower w)); [|discriminate].
    destruct (IH _ _ H) as (name' & -> & Hl).
    exists (c :: name'). simpl. now rewrite Hl.
Qed.

Lemma same_word_length a b : same_word a b -> length a = length b.
Proof.
  intros H. apply (f_equal (@length _)) in H. now rewrite !length_map in H.
Qed.

Lemma word_not_sep c : implb (Char.is_word c) (negb (is_sep c)) = true.
Proof.
  revert c.
  by_cases_on_ascii (fun c => implb (Char.is_word c) (negb (is_sep c))).
Qed.

Lemma digit_word c : implb (Char.is_digit c) (Char.is_word c) = true.
Proof.
  revert c.
  by_cases_on_ascii (fun c => implb (Char.is_digit c) (Char.is_word c)).
Qed.

Lemma sep_not_digit c : implb (is_sep c) (negb (Char.is_digit c)) = true.
Proof.
  revert c.
  by_cases_on_ascii (fun c => implb (is_sep c) (negb (Char.is_digit c))).
Qed.

Lemma digit_lower c : Char.is_digit (Char.lower c) = Char.is_digit c.
Proof.
  apply Bool.eqb_prop. revert c.
  by_cases_on_ascii
    (fun c => Bool.eqb (Char.is_digit (Char.lower c)) (Char.is_digit c)).
Qed.

Lemma type_class_not_sep t c : type_class t c = true -> is_sep c = false.
Proof.
  intros H.
  assert (Hw : Char.is_word c = true).
  { destruct t; simpl in H; [|exact H].
    pose proof (digit_word c) as Hd. now rewrite H in Hd. }
  pose proof (word_not_sep c) as Hs. rewrite Hw in Hs. simpl in Hs.
  now destruct (is_sep c).
Qed.

(** A well-formed occurrence: the name in any case, separators, a value
    of the class that ends where the class ends. *)
Lemma option_pattern_exact name t name' seps val post :
  same_word name' name ->
  seps <> [] -> forallb is_sep seps = true ->
  val <> [] -> forallb (type_class t) val = true ->
  stops (type_class t) post ->
  option_pattern name (type_class t) ((name' ++ seps ++ val) ++ post)
  = Some (length (name' ++ seps ++ val)).
Proof.
  intros Hname Hs1 Hs2 Hv1 Hv2 Hpost. unfold option_pattern.
  rewrite <- !app_assoc.
  rewrite (literal_ci_exact _ _ _ Hname).
  assert (Hstop : stops is_sep (val ++ post)).
  { destruct val as [|c val]; [contradiction|]. simpl in *.
    apply andb_prop in Hv2. now apply (type_class_not_sep t). }
  rewrite (span_exact _ _ _ Hs2 Hstop).
  rewrite (span_exact _ _ _ Hv2 Hpost).
  destruct seps; [contradiction|]. destruct val; [contradiction|].
  rewrite !length_app, (same_word_length _ _ Hname). f_equal. lia.
Qed.

Lemma firstn_exact (a b : str) n : n = length a -> firstn n (a ++ b) = a.
Proof.
  intros ->. rewrite firstn_app, firstn_all, Nat.sub_diag. simpl.
  apply app_nil_r.
Qed.

Lemma option_pattern_sound name cls s n :
  option_pattern name cls s = Some n ->
  exists name' seps val,
    firstn n s = name' ++ seps ++ val
    /\ val <> [] /\ forallb cls val = true.
Proof.
  unfold option_pattern. intros H.
  destruct (Re.literal_ci name s) as [rest|] eqn:El; [|discriminate].
  destruct (literal_ci_sound _ _ _ El) as (name' & -> & Hl).
  pose proof (span_app is_sep rest) as Hs.
  destruct (Re.span is_sep rest) as [seps rest'] eqn:Es. simpl in Hs.
  pose proof (span_app cls rest') as Hv.
  pose proof (span_run cls rest') as Hr.
  destruct (Re.span cls rest') as [val tail] eqn:Ev. simpl in Hv, Hr.
  destruct seps as [|s0 seps]; [discriminate|].
  destruct val as [|v0 val]; [discriminate|].
  injection H as <-.
  exists name', (s0 :: seps), (v0 :: val). split; [|split; [discriminate|exact Hr]].
  rewrite <- Hs, <- Hv, <- Hl.
  replace (name' ++ (s0 :: seps) ++ (v0 :: val) ++ tail)
    with ((name' ++ (s0 :: seps) ++ v0 :: val) ++ tail)
    by now rewrite <- !app_assoc.
  apply firstn_exact. rewrite !length_app. simpl. lia.
Qed.

(** ** Names of plain characters *)

Lemma plain_not_parenthesis c :
  implb (negb (is_special c))
        (negb (Ascii.eqb c "(") && negb (Ascii.eqb c ")")) = true.
Proof.
  revert c.
  by_cases_on_ascii
    (fun c => implb (negb (is_special c))
                    (negb (Ascii.eqb c "(") && negb (Ascii.eqb c ")"))).
Qed.

Lemma compile_name_plain name cls : forall chars,
  plain name = true ->
  compile_name name chars None [] cls
  = Return {| word := chars ++ name; value_class := cls; groups := [] |}.
Proof.
  induction name as [|c name IH]; intros chars H.
  - cbn [compile_name]. now rewrite app_nil_r.
  - cbn [plain forallb] in H. apply andb_prop in H. destruct H as [Hc H].
    pose proof (plain_not_parenthesis c) as Hp. rewrite Hc in Hp.
    cbn [implb] in Hp. apply andb_prop in Hp. destruct Hp as [Ho Hcl].
    cbn [compile_name].
    destruct (Ascii.eqb c "("); [discriminate|].
    destruct (Ascii.eqb c ")"); [discriminate|].
    rewrite (IH _ H), <- app_assoc. reflexivity.
Qed.

(** The compiler reads a name of plain characters as a literal, without
    group. *)
Lemma re_compile_plain name cls :
  plain name = true ->
  re_compile name cls
  = Return {| word := name; value_class := cls; groups := [] |}.
Proof.
  intros H. unfold re_compile.
  assert (Hc : forallb (fun c => negb (is_special c) || Ascii.eqb c "("
                                 || Ascii.eqb c ")") name = true).
  { unfold plain in H. rewrite forallb_forall in H |- *.
    intros c Hin. now rewrite (H c Hin). }
  rewrite Hc. now apply compile_name_plain.
Qed.

Lemma occurrences_plain name text type_ :
  plain name = true ->
  occurrences name text type_
  = Re.findall (option_pattern name (type_class (kind type_))) text.
Proof. intros H. unfold occurrences. now rewrite re_compile_plain. Qed.

(** The extractor on a name of plain characters. *)
Lemma extract_plain name text type_ :
  plain name = true ->
  extract_option_from_string name text type_
  = match Re.findall (option_pattern name (type_class (kind type_))) text with
    | [] => Return (text, None)
    | match_0 :: _ =>
        match digit_runs match_0 with
        | [] => Raise IndexError
        | out :: _ =>
            match kind type_ with
            | TInt =>
                Return (Re.sub_empty
                          (option_pattern name (type_class (kind type_))) text,
                        Some (VInt (int_of_digits out)))
            | TStr =>
                Return (Re.sub_empty
                          (option_pattern name (type_class (kind type_))) text,
                        Some (VStr out))
            end
        end
    end.
Proof.
  intros H. unfold extract_option_from_string. fold (kind type_).
  rewrite (re_compile_plain _ _ H). cbn [bind].
  unfold findall, found, matcher. cbn [groups word value_class].
  now destruct (Re.findall _ text).
Qed.

(* ================================================================== *)
(** * Option extractor *)

Lemma same_word_digit_free a b :
  same_word a b -> digit_free b = true -> digit_free a = true.
Proof.
  unfold same_word, digit_free. revert b.
  induction a as [|c a IH]; intros [|d b] H Hb; try discriminate; [reflexivity|].
  simpl in *. injection H as Hc H.
  apply andb_prop in Hb. destruct Hb as [Hd Hb].
  rewrite (IH _ H Hb), andb_true_r.
  now rewrite <- digit_lower, Hc, digit_lower.
Qed.

Lemma seps_digit_free seps : forallb is_sep seps = true -> digit_free seps = true.
Proof.
  unfold digit_free. induction seps as [|c seps IH]; [reflexivity|].
  simpl. intros H. apply andb_prop in H. destruct H as [Hc H].
  rewrite (IH H), andb_true_r.
  pose proof (sep_not_digit c) as Hd. now rewrite Hc in Hd.
Qed.

Lemma digit_free_app a b :
  digit_free a = true -> digit_free b = true -> digit_free (a ++ b) = true.
Proof. unfold digit_free. intros Ha Hb. now rewrite forallb_app, Ha, Hb. Qed.

(** C3 (as amended).  For an option name of plain characters, which the
    pattern reads literally: when the text holds a well-formed occurrence
    of the option and no occurrence starts before it, the extractor
    removes that occurrence and every later one, and alters nothing else;
    with kind [int] and a name without digits it returns the digits of
    the first occurrence as an integer; when nothing else in the text
    matches, the residual text is the input with exactly that occurrence
    removed. *)
Theorem extract_option_occurrences name type_ pre name' seps val post :
  let cls := type_class (kind type_) in
  let pat := option_pattern name cls in
  let text := pre ++ (name' ++ seps ++ val) ++ post in
  plain name = true ->
  same_word name' name ->
  seps <> [] -> forallb is_sep seps = true ->
  val <> [] -> forallb cls val = true ->
  stops cls post ->
  no_match_before pat (length pre) text ->
  (extract_option_from_string name text type_ = Raise IndexError
   \/ exists v, extract_option_from_string name text type_
                = Return (pre ++ Re.sub_empty pat post, Some v))
  /\ (type_ = Some TInt -> digit_free name = true ->
      extract_option_from_string name text type_
      = Return (pre ++ Re.sub_empty pat post, Some (VInt (int_of_digits val))))
  /\ (Re.findall pat post = [] -> Re.sub_empty pat post = post).
Proof.
  intros cls pat text Hplain Hname Hs1 Hs2 Hv1 Hv2 Hpost Hpre.
  assert (Hne : name' ++ seps ++ val <> []).
  { destruct seps; [contradiction|]. now destruct name'. }
  assert (Hm : pat ((name' ++ seps ++ val) ++ post)
               = Some (length (name' ++ seps ++ val))).
  { now apply option_pattern_exact. }
  destruct (scan_first_match pat pre _ post Hne Hm Hpre) as [Hfind Hsub].
  fold text in Hfind, Hsub.
  assert (Hx : extract_option_from_string name text type_ =
               match digit_runs (name' ++ seps ++ val) with
               | [] => Raise IndexError
               | out :: _ =>
                   match kind type_ with
                   | TInt => Return (pre ++ Re.sub_empty pat post,
                                     Some (VInt (int_of_digits out)))
                   | TStr => Return (pre ++ Re.sub_empty pat post,
                                     Some (VStr out))
                   end
               end).
  { rewrite (extract_plain _ _ _ Hplain). fold cls. fold pat.
    rewrite Hfind, Hsub. now destruct (kind type_). }
  split; [|split].
  - rewrite Hx. destruct (digit_runs (name' ++ seps ++ val)); [now left|right].
    destruct (kind type_); eauto.
  - intros -> Hd. rewrite Hx. simpl kind.
    replace (name' ++ seps ++ val) with ((name' ++ seps) ++ val ++ [])
      by now rewrite app_nil_r, app_assoc.
    rewrite digit_runs_first; [reflexivity| |exact Hv1|exact Hv2|exact I].
    apply digit_free_app; [|now apply seps_digit_free].
    eapply same_word_digit_free; eassumption.
  - apply sub_without_match.
Qed.

Lemma extract_option_occurrences_witness :
  extract_option_from_string (lit "limit") (lit "cat LIMIT= 123 dog limit:7")
                             (Some TInt)
  = Return (lit "cat  dog ", Some (VInt 123))
  /\ extract_option_from_string (lit "page") (lit "cat page=123 dog")
                                (Some TInt)
     = Return (lit "cat  dog", Some (VInt 123)).
Proof.
  assert (Hlimit : no_match_before
                     (option_pattern (lit "limit") Char.is_digit)
                     (length (lit "cat "))
                     (lit "cat " ++ (lit "LIMIT" ++ lit "= " ++ lit "123")
                          ++ lit " dog limit:7")).
  { intros i Hi. do 4 (destruct i as [|i]; [reflexivity|]).
    simpl in Hi. lia. }
  assert (Hpage : no_match_before
                    (option_pattern (lit "page") Char.is_digit)
                    (length (lit "cat "))
                    (lit "cat " ++ (lit "page" ++ lit "=" ++ lit "123")
                         ++ lit " dog")).
  { intros i Hi. do 4 (destruct i as [|i]; [reflexivity|]).
    simpl in Hi. lia. }
  split.
  - exact (proj1 (proj2
             (extract_option_occurrences
                (lit "limit") (Some TInt) (lit "cat ") (lit "LIMIT") (lit "= ")
                (lit "123") (lit " dog limit:7")
                eq_refl eq_refl ltac:(discriminate) eq_refl ltac:(discriminate)
                eq_refl eq_refl Hlimit))
           eq_refl eq_refl).
  - exact (proj1 (proj2
             (extract_option_occurrences
                (lit "page") (Some TInt) (lit "cat ") (lit "page") (lit "=")
                (lit "123") (lit " dog")
                eq_refl eq_refl ltac:(discriminate) eq_refl ltac:(discriminate)
                eq_refl eq_refl Hpage))
           eq_refl eq_refl).
Defined.

(** C3 as stated fails: a second occurrence of the option is removed
    too, where removing the first match alone would leave it in the text. *)
Lemma extract_removes_later_occurrences :
  extract_option_from_string (lit "page") (lit "page=1 page=2") (Some TInt)
  = Return (lit " ", Some (VInt 1))
  /\ remove_first (option_pattern (lit "page") Char.is_digit)
                  (lit "page=1 page=2") = lit " page=2"
  /\ forall v,
       extract_option_from_string (lit "page") (lit "page=1 page=2") (Some TInt)
       <> Return (remove_first (option_pattern (lit "page") Char.is_digit)
                               (lit "page=1 page=2"), v).
Proof.
  split; [reflexivity|split; [reflexivity|]].
  intros v H. vm_compute in H. discriminate.
Qed.





(* ================================================================== *)
(** * Media batch loop *)

Lemma distinct_inj l a b :
  distinct l -> In a l -> In b l -> ident a = ident b -> a = b.
Proof.
  unfold distinct. induction l as [|x l IH]; simpl; [tauto|].
  intros Hnd Ha Hb E. inversion Hnd as [|? ? Hx Hl]; subst.
  destruct Ha as [<-|Ha], Hb as [<-|Hb]; try reflexivity.
  - exfalso. apply Hx. rewrite E. now apply in_map.
  - exfalso. apply Hx. rewrite <- E. now apply in_map.
  - now apply IH.
Qed.

Lemma distinct_filter f l : distinct l -> distinct (filter f l).
Proof.
  unfold distinct. induction l as [|x l IH]; simpl; [tauto|].
  intros Hnd. inversion Hnd as [|? ? Hx Hl]; subst.
  destruct (f x); [|now apply IH]. simpl. constructor; [|now apply IH].
  intros Hin. apply Hx. apply in_map_iff in Hin.
  destruct Hin as (y & Hy & Hin). apply filter_In in Hin.
  apply in_map_iff. exists y. tauto.
Qed.

Lemma distinct_skipn n l : distinct l -> distinct (skipn n l).
Proof.
  unfold distinct. intros H.
  rewrite <- (firstn_skipn n l), map_app in H.
  now apply NoDup_app_remove_l in H.
Qed.

Lemma distinct_perm l l' : Permutation l' l -> distinct l -> distinct l'.
Proof.
  unfold distinct. intros Hp Hnd.
  eapply Permutation_NoDup; [|exact Hnd].
  apply Permutation_map, Permutation_sym, Hp.
Qed.

Lemma mem_object_in l m : In m l -> mem_object m l = true.
Proof.
  intros H. unfold mem_object. apply existsb_exists. exists m.
  split; [exact H|]. unfold same_object. apply Nat.eqb_refl.
Qed.

Lemma mem_object_distinct l sub m :
  distinct l -> incl sub l -> In m l -> mem_object m sub = true -> In m sub.
Proof.
  intros Hnd Hsub Hm H. unfold mem_object in H.
  apply existsb_exists in H. destruct H as (x & Hx & E).
  unfold same_object in E. apply Nat.eqb_eq in E.
  now rewrite (distinct_inj l m x Hnd Hm (Hsub _ Hx) E).
Qed.

Lemma filter_none {A} (f : A -> bool) l :
  Forall (fun x => f x = false) l -> filter f l = [].
Proof.
  induction 1 as [|x l Hx _ IH]; [reflexivity|]. simpl. now rewrite Hx.
Qed.

Lemma sends_app a b : sends (a ++ b) = sends a ++ sends b.
Proof. apply flat_map_app. Qed.

Lemma heads_app a b : heads (a ++ b) = heads a ++ heads b.
Proof. apply flat_map_app. Qed.

Lemma since_app st st' evs : trace st' = trace st ++ evs -> since st st' = evs.
Proof.
  intros H. unfold since. rewrite H, skipn_app, skipn_all, Nat.sub_diag.
  reflexivity.
Qed.

Ltac state_simpl :=
  cbn [log tick count_error with_media_list media_list clock trace errors].

Section LoopFacts.

Context {py_set : PySet}.
Variable env : Env.

Lemma probe_batch_spec batch : forall st el st' el',
  probe_batch env batch st el = (st', el') ->
  exists evs,
    trace st' = trace st ++ evs
    /\ media_list st' = media_list st
    /\ map fst (heads evs) = batch
    /\ sends evs = []
    /\ errors st' = errors st + length (filter bad_probe (heads evs))
    /\ el' = el ++ map fst (filter bad_probe (heads evs))
    /\ Forall (fun p => exists c, snd p = requests_head env c (media (fst p)))
              (heads evs).
Proof.
  induction batch as [|m batch IH]; intros st el st' el' H; simpl in H.
  - injection H as <- <-. exists []. simpl.
    rewrite !app_nil_r. repeat split; auto.
  - set (code := requests_head env (clock st) (media m)) in *.
    assert (Hbp : bad_probe (m, code) = bad_status code) by reflexivity.
    destruct (bad_status code) eqn:Eb;
      apply IH in H; destruct H as (evs & Ht & Hm & Hh & Hs & He & Hel & Hc);
      exists ([ChatAction TYPING; Head m code] ++ evs);
      simpl in Ht, Hm, He |- *; rewrite Hbp; simpl;
      rewrite Ht, <- app_assoc; simpl;
      assert (Hc' : Forall (fun p => exists c,
                                snd p = requests_head env c (media (fst p)))
                           ((m, code) :: heads evs))
        by (constructor; [now exists (clock st)|exact Hc]).
    + repeat split; auto; try congruence.
      * lia.
      * rewrite Hel, <- app_assoc. reflexivity.
    + repeat split; auto; congruence.
Qed.

(** The [except BadRequest] branch of one pass. *)
Lemma loop_body_rejected st :
  1 < length (media_list st) ->
  send_media_group env (clock st) (firstn 10 (media_list st)) = false ->
  exists probes,
    trace (loop_body env st)
    = trace st ++ [ChatAction UPLOAD_PHOTO;
                   SendMediaGroup (firstn 10 (media_list st)) false]
               ++ probes
    /\ map fst (heads probes) = firstn 10 (media_list st)
    /\ sends probes = []
    /\ errors (loop_body env st)
       = errors st + length (filter bad_probe (heads probes))
    /\ media_list (loop_body env st)
       = set_difference (media_list st)
                        (map fst (filter bad_probe (heads probes)))
    /\ Forall (fun p => exists c, snd p = requests_head env c (media (fst p)))
              (heads probes).
Proof.
  intros Hlen Hrej. unfold loop_body. state_simpl.
  apply Nat.ltb_lt in Hlen. rewrite Hlen, Hrej.
  destruct (probe_batch env _ _ []) as [st' el] eqn:Ep.
  apply probe_batch_spec in Ep.
  destruct Ep as (evs & Ht & Hm & Hh & Hs & He & Hel & Hc).
  simpl in Ht, Hm, He, Hel. exists evs. state_simpl.
  rewrite Ht, <- !app_assoc. simpl.
  repeat split; auto.
  now rewrite Hm, Hel.
Qed.

Lemma loop_body_accepted st :
  1 < length (media_list st) ->
  send_media_group env (clock st) (firstn 10 (media_list st)) = true ->
  trace (loop_body env st)
  = trace st ++ [ChatAction UPLOAD_PHOTO;
                 SendMediaGroup (firstn 10 (media_list st)) true]
  /\ media_list (loop_body env st) = skipn 10 (media_list st)
  /\ errors (loop_body env st) = errors st.
Proof.
  intros Hlen Hok. unfold loop_body. state_simpl.
  apply Nat.ltb_lt in Hlen. rewrite Hlen, Hok. state_simpl.
  rewrite <- app_assoc. auto.
Qed.

Lemma loop_body_single st m :
  media_list st = [m] ->
  exists ok,
    trace (loop_body env st)
    = trace st ++ [ChatAction UPLOAD_PHOTO; SendPhoto m ok]
    /\ media_list (loop_body env st) = [].
Proof.
  intros Hm. unfold loop_body. state_simpl. rewrite Hm.
  change (1 <? length [m]) with false. cbv iota.
  exists (send_photo env (clock st) (media m) (caption m)).
  destruct (send_photo _ _ _ _); state_simpl; rewrite <- app_assoc; auto.
Qed.

(** One pass: what it logs, what it leaves pending. *)
Lemma loop_body_step st :
  media_list st <> [] ->
  distinct (media_list st) ->
  exists evs,
    trace (loop_body env st) = trace st ++ evs
    /\ incl (sends evs) (media_list st)
    /\ incl (media_list (loop_body env st)) (media_list st)
    /\ distinct (media_list (loop_body env st))
    /\ (forall m, In m (media_list st) ->
                  In m (media_list (loop_body env st)) \/ In m (sends evs))
    /\ (forallb accepted evs = true ->
        sends evs ++ media_list (loop_body env st) = media_list st).
Proof.
  intros Hne Hnd.
  destruct (media_list st) as [|m0 [|m1 rest]] eqn:El; [contradiction| |].
  - destruct (loop_body_single st m0 El) as (ok & Ht & Hm).
    exists [ChatAction UPLOAD_PHOTO; SendPhoto m0 ok]. rewrite Hm. simpl.
    split; [exact Ht|]. split; [apply incl_refl|].
    split; [apply incl_nil_l|]. split; [constructor|].
    split; [|reflexivity].
    intros m [<-|[]]. right. now left.
  - assert (Hlen : 1 < length (media_list st)) by (rewrite El; simpl; lia).
    destruct (send_media_group env (clock st) (firstn 10 (media_list st)))
      eqn:Es.
    + destruct (loop_body_accepted st Hlen Es) as (Ht & Hm & _).
      exists [ChatAction UPLOAD_PHOTO;
              SendMediaGroup (firstn 10 (media_list st)) true].
      rewrite Hm, <- El. cbn [sends flat_map attempted]. rewrite app_nil_r.
      split; [exact Ht|]. split; [|split; [|split; [|split]]].
      * intros x Hx. rewrite <- (firstn_skipn 10 (media_list st)).
        apply in_or_app. now left.
      * intros x Hx. rewrite <- (firstn_skipn 10 (media_list st)).
        apply in_or_app. now right.
      * apply distinct_skipn. now rewrite El.
      * intros x Hx. rewrite <- (firstn_skipn 10 (media_list st)) in Hx.
        apply in_app_or in Hx. tauto.
      * intros _. apply firstn_skipn.
    + assert (Hnd' : distinct (media_list st)) by now rewrite El.
      destruct (loop_body_rejected st Hlen Es)
        as (probes & Ht & Hh & Hs & _ & Hp & _).
      rewrite Hp.
      pose proof (set_difference_perm
                    _ (map fst (filter bad_probe (heads probes))) Hnd')
        as Hp'. clear Hp. rename Hp' into Hp.
      exists ([ChatAction UPLOAD_PHOTO;
               SendMediaGroup (firstn 10 (media_list st)) false] ++ probes).
      rewrite <- El.
      rewrite sends_app, Hs, app_nil_r.
      cbn [sends flat_map attempted]. rewrite app_nil_r.
      split; [exact Ht|]. split; [|split; [|split; [|split]]].
      * intros x Hx. rewrite <- (firstn_skipn 10 (media_list st)).
        apply in_or_app. now left.
      * intros x Hx. apply (Permutation_in _ Hp) in Hx.
        apply filter_In in Hx. tauto.
      * eapply distinct_perm; [exact Hp|]. now apply distinct_filter.
      * intros x Hx.
        destruct (mem_object x (map fst (filter bad_probe (heads probes))))
          eqn:Em.
        -- right. apply (mem_object_distinct (media_list st)) in Em; auto.
           ++ apply in_map_iff in Em. destruct Em as (p & <- & Hp').
              apply filter_In in Hp'. destruct Hp' as [Hp' _].
              rewrite <- Hh. now apply in_map.
           ++ intros y Hy. apply in_map_iff in Hy.
              destruct Hy as (p & <- & Hp').
              apply filter_In in Hp'. destruct Hp' as [Hp' _].
              rewrite <- (firstn_skipn 10 (media_list st)).
              apply in_or_app. left. rewrite <- Hh. now apply in_map.
        -- left. apply (Permutation_in _ (Permutation_sym Hp)).
           apply filter_In. split; [exact Hx|]. now rewrite Em.
      * simpl. discriminate.
Qed.

(** A pass makes one send attempt, on the first ten pending items at
    most. *)
Lemma loop_body_attempts st :
  media_list st <> [] ->
  sends (since st (loop_body env st)) = firstn 10 (media_list st).
Proof.
  intros Hne.
  destruct (media_list st) as [|m0 [|m1 rest]] eqn:El; [contradiction| |].
  - destruct (loop_body_single st m0 El) as (ok & Ht & _).
    now rewrite (since_app _ _ _ Ht).
  - assert (Hlen : 1 < length (media_list st)) by (rewrite El; simpl; lia).
    rewrite <- El.
    destruct (send_media_group env (clock st) (firstn 10 (media_list st)))
      eqn:Es.
    + destruct (loop_body_accepted st Hlen Es) as (Ht & _).
      rewrite (since_app _ _ _ Ht). cbn [sends flat_map attempted].
      now rewrite app_nil_r.
    + destruct (loop_body_rejected st Hlen Es) as (probes & Ht & _ & Hs & _).
      rewrite (since_app _ _ _ Ht), sends_app, Hs.
      cbn [sends flat_map attempted]. now rewrite !app_nil_r.
Qed.

End LoopFacts.

Section Runs.

Context {py_set : PySet}.
Variable env : Env.

(** Any number of passes: what they log and what they leave pending. *)
Lemma iterations_run n : forall st,
  distinct (media_list st) ->
  exists evs,
    trace (iterations env n st) = trace st ++ evs
    /\ incl (sends evs) (media_list st)
    /\ incl (media_list (iterations env n st)) (media_list st)
    /\ distinct (media_list (iterations env n st))
    /\ (forall m, In m (media_list st) ->
                  In m (media_list (iterations env n st))
                  \/ In m (sends evs))
    /\ (forallb accepted evs = true ->
        sends evs ++ media_list (iterations env n st) = media_list st).
Proof.
  induction n as [|n IH]; intros st Hnd.
  - exists []. simpl. rewrite app_nil_r.
    repeat split; auto using incl_refl, incl_nil_l.
  - simpl. destruct (media_list st) as [|m0 rest] eqn:El.
    + exists []. simpl. rewrite app_nil_r, El.
      repeat split; auto using incl_refl, incl_nil_l.
    + rewrite <- El in *.
      assert (Hne : media_list st <> []) by now rewrite El.
      destruct (loop_body_step env st Hne Hnd)
        as (e1 & Ht1 & Hs1 & Hi1 & Hd1 & Hk1 & Ho1).
      destruct (IH (loop_body env st) Hd1)
        as (e2 & Ht2 & Hs2 & Hi2 & Hd2 & Hk2 & Ho2).
      exists (e1 ++ e2). rewrite Ht2, Ht1, <- app_assoc, sends_app.
      split; [reflexivity|]. split; [|split; [|split; [|split]]].
      * apply incl_app; [exact Hs1|]. eapply incl_tran; eassumption.
      * eapply incl_tran; eassumption.
      * exact Hd2.
      * intros m Hm. rewrite in_app_iff.
        destruct (Hk1 m Hm) as [H|H]; [|tauto].
        destruct (Hk2 m H); tauto.
      * rewrite forallb_app. intros H. apply andb_prop in H.
        destruct H as [Ha1 Ha2].
        rewrite <- app_assoc, (Ho2 Ha2). now apply Ho1.
Qed.

(** With every multi-item send rejected and every probe answered with a
    good status, a pending list of two or more items stays as it is. *)
Lemma rejecting_pass st :
  (forall c batch, send_media_group env c batch = false) ->
  (forall c url, bad_status (requests_head env c url) = false) ->
  distinct (media_list st) ->
  1 < length (media_list st) ->
  Permutation (media_list (loop_body env st)) (media_list st).
Proof.
  intros Hrej Hgood Hnd Hlen.
  destruct (loop_body_rejected env st Hlen (Hrej _ _))
    as (probes & _ & _ & _ & _ & Hm & Hc).
  rewrite Hm.
  assert (Hnone : filter bad_probe (heads probes) = []).
  { apply filter_none. eapply Forall_impl; [|exact Hc].
    intros p (c & Hp). unfold bad_probe. rewrite Hp. apply Hgood. }
  rewrite Hnone.
  rewrite (set_difference_perm _ [] Hnd). simpl.
  rewrite forallb_filter_id; [reflexivity|].
  apply forallb_forall. reflexivity.
Qed.

Lemma rejecting_run n : forall st,
  (forall c batch, send_media_group env c batch = false) ->
  (forall c url, bad_status (requests_head env c url) = false) ->
  distinct (media_list st) ->
  1 < length (media_list st) ->
  Permutation (media_list (iterations env n st)) (media_list st).
Proof.
  induction n as [|n IH]; intros st Hrej Hgood Hnd Hlen; [reflexivity|].
  simpl. destruct (media_list st) as [|m0 rest] eqn:El; [now rewrite El|].
  rewrite <- El in *.
  pose proof (rejecting_pass st Hrej Hgood Hnd Hlen) as Hp.
  rewrite IH; auto.
  - eapply distinct_perm; eassumption.
  - now rewrite (Permutation_length Hp).
Qed.

Lemma rejecting_loop fuel st :
  (forall c batch, send_media_group env c batch = false) ->
  (forall c url, bad_status (requests_head env c url) = false) ->
  distinct (media_list st) ->
  1 < length (media_list st) ->
  while_media_list env fuel st = None.
Proof.
  intros Hrej Hgood Hnd Hlen. unfold while_media_list.
  pose proof (rejecting_run fuel st Hrej Hgood Hnd Hlen) as Hp.
  apply Permutation_length in Hp.
  destruct (media_list (iterations env fuel st)); [simpl in Hp; lia|].
  reflexivity.
Qed.

(** X20.  When the multi-item send of a pass is rejected, the items of
    that batch, and no others, are probed, in order; each probe with a
    status outside 200..399 adds one to the error count and its item is
    in no later send attempt; every other pending item stays pending,
    and stays so until a send attempt includes it; the next pass makes
    its send attempt on the first ten of them at most. *)
Theorem rejected_batch_probed st :
  distinct (media_list st) ->
  1 < length (media_list st) ->
  send_media_group env (clock st) (firstn 10 (media_list st)) = false ->
  let st' := loop_body env st in
  let probes := heads (since st st') in
  let failed := map fst (filter bad_probe probes) in
  map fst probes = firstn 10 (media_list st)
  /\ errors st' = errors st + length failed
  /\ (forall m, In m (media_list st')
                <-> In m (media_list st) /\ ~ In m failed)
  /\ (forall n m, In m failed ->
                  ~ In m (sends (since st' (iterations env n st'))))
  /\ (forall n m, In m (media_list st') ->
                  In m (media_list (iterations env n st'))
                  \/ In m (sends (since st' (iterations env n st'))))
  /\ (media_list st' <> [] ->
      sends (since st' (loop_body env st')) = firstn 10 (media_list st')).
Proof.
  intros Hnd Hlen Hrej st' probes failed.
  destruct (loop_body_rejected env st Hlen Hrej)
    as (evs & Ht & Hh & Hs & He & Hm & _).
  assert (Hsince : since st st'
                   = [ChatAction UPLOAD_PHOTO;
                      SendMediaGroup (firstn 10 (media_list st)) false]
                       ++ evs) by now apply since_app.
  assert (Hprobes : probes = heads evs).
  { unfold probes. rewrite Hsince. reflexivity. }
  assert (Hfailed : incl failed (media_list st)).
  { intros m Hin. unfold failed in Hin. apply in_map_iff in Hin.
    destruct Hin as (p & <- & Hp). apply filter_In in Hp.
    rewrite <- (firstn_skipn 10 (media_list st)).
    apply in_or_app. left. rewrite <- Hh, <- Hprobes.
    now apply in_map. }
  assert (Hpending : forall m, In m (media_list st')
                               <-> In m (media_list st) /\ ~ In m failed).
  { intros m. unfold st'. rewrite Hm. fold probes in Hprobes.
    rewrite <- Hprobes. fold failed.
    pose proof (set_difference_perm _ failed Hnd) as Hp.
    split.
    - intros Hin. apply (Permutation_in _ Hp) in Hin.
      apply filter_In in Hin. destruct Hin as [Hin Hmem].
      split; [exact Hin|]. intros Hf.
      now rewrite (mem_object_in _ _ Hf) in Hmem.
    - intros [Hin Hf]. apply (Permutation_in _ (Permutation_sym Hp)).
      apply filter_In. split; [exact Hin|].
      destruct (mem_object m failed) eqn:Em; [|reflexivity].
      exfalso. apply Hf.
      now apply (mem_object_distinct (media_list st)). }
  assert (Hnd' : distinct (media_list st')).
  { unfold st'. rewrite Hm.
    eapply distinct_perm; [now apply set_difference_perm|].
    now apply distinct_filter. }
  split; [now rewrite Hprobes|]. split.
  { unfold failed. rewrite length_map, Hprobes. exact He. }
  split; [exact Hpending|]. split; [|split].
  - intros n m Hf Hsent.
    destruct (iterations_run n st' Hnd') as (later & Hl & Hsl & _).
    rewrite (since_app _ _ _ Hl) in Hsent.
    apply Hsl, Hpending in Hsent. tauto.
  - intros n m Hin.
    destruct (iterations_run n st' Hnd') as (later & Hl & _ & _ & _ & Hk & _).
    rewrite (since_app _ _ _ Hl). now apply Hk.
  - apply loop_body_attempts.
Qed.

End Runs.


Lemma build_distinct site posts : forall next errors0 ml,
  distinct ml ->
  (forall m, In m ml -> ident m < next) ->
  distinct (snd (build site posts next errors0 ml)).
Proof.
  induction posts as [|p posts IH]; intros next errors0 ml Hnd Hlt;
    [exact Hnd|].
  cbn [build]. destruct (image_url_of site p) as [u|]; [|now apply IH].
  destruct (usable (Some u)); [|now apply IH].
  apply IH.
  - unfold distinct in *. rewrite map_app. simpl.
    apply NoDup_app; [exact Hnd|constructor; [tauto|constructor]|].
    intros x Hx [<-|[]]. apply in_map_iff in Hx.
    destruct Hx as (m & E & Hm). apply Hlt in Hm. lia.
  - intros m Hm. apply in_app_or in Hm. destruct Hm as [Hm|[<-|[]]].
    + apply Hlt in Hm. lia.
    + simpl. lia.
Qed.

Lemma built_list_distinct env query : distinct (built_list env query).
Proof.
  apply build_distinct; [constructor|]. intros m [].
Qed.

Section Outcomes.

Context {py_set : PySet}.
Variable env : Env.

(** The events of a call: the backend call, then the loop. *)
Lemma post_list_send_media_group_events fuel query :
  exists st,
    st = iterations env fuel
           {| media_list := built_list env query;
              errors := fst (build (site_url env)
                                   (post_list env (clamp query)) 0 0 []);
              clock := 0; trace := [PostList (clamp query)] |}
    /\ match post_list env (clamp query) with
       | [] =>
           post_list_send_media_group env fuel query
           = Finished [PostList (clamp query);
                       ReplyText (lit "Nothing found on page "
                                  ++ str_of_int (page (clamp query)))]
       | _ :: _ =>
           (media_list st <> []
            /\ post_list_send_media_group env fuel query
               = Running (trace st))
           \/ (media_list st = []
               /\ exists report,
                    post_list_send_media_group env fuel query
                    = Finished (trace st ++ report)
                    /\ sends report = []
                    /\ forallb accepted report = true
                    /\ Forall (fun e => forall q, e <> PostList q) report)
       end.
Proof.
  eexists. split; [reflexivity|].
  unfold post_list_send_media_group, built_list. fold (clamp query).
  destruct (post_list env (clamp query)) as [|p posts] eqn:Ep;
    [reflexivity|].
  destruct (build (site_url env) (p :: posts) 0 0 []) as [e0 ml0] eqn:Eb.
  cbn [fst snd]. unfold while_media_list.
  set (st := iterations env fuel _).
  destruct (media_list st) eqn:El; [right|left].
  - split; [reflexivity|].
    destruct (Nat.eqb (errors st) 0).
    + exists []. repeat split; auto.
    + eexists. split; [reflexivity|]. split; [reflexivity|].
      split; [reflexivity|]. constructor; [discriminate|constructor].
  - split; [discriminate|reflexivity].
Qed.

End Outcomes.


Lemma items_distinct a n : distinct (map item_number (seq a n)).
Proof.
  unfold distinct. rewrite map_map. simpl. rewrite map_id. apply seq_NoDup.
Qed.

(** C1, on the code: with two posts, a platform that rejects every media
    group and urls that all answer 200, the loop is still running after
    any number of passes, whatever the order the set yields. *)
Theorem batch_loop_never_ends (py_set : PySet) fuel query :
  exists t, post_list_send_media_group rejecting_env fuel query = Running t.
Proof.
  destruct (post_list_send_media_group_events rejecting_env fuel query)
    as (st & Hst & H).
  change (post_list rejecting_env (clamp query))
    with (map post_number (seq 0 2)) in H.
  cbn [map seq] in H. destruct H as [[_ H]|[Hend _]]; [eauto|].
  exfalso.
  assert (Hb : built_list rejecting_env query = map item_number (seq 0 2))
    by reflexivity.
  assert (Hp : Permutation (media_list st) (built_list rejecting_env query)).
  { rewrite Hst. apply rejecting_run; cbn [media_list]; try reflexivity.
    - rewrite Hb. apply items_distinct.
    - rewrite Hb. simpl. lia. }
  apply Permutation_length in Hp. rewrite Hend, Hb in Hp. discriminate.
Qed.

Section Order.

Context {py_set : PySet}.
Variable env : Env.

(** C2 (as amended).  As long as no multi-item send is rejected, the
    items are sent in the order they were collected: the items of the
    send attempts, followed by those still pending, are the built list,
    and nothing is pending when the call has finished. *)
Theorem sends_follow_collected_order fuel query :
  forallb accepted (events_of (post_list_send_media_group env fuel query))
  = true ->
  exists pending,
    sends (events_of (post_list_send_media_group env fuel query)) ++ pending
    = built_list env query
    /\ (forall t, post_list_send_media_group env fuel query = Finished t ->
                  pending = []).
Proof.
  intros Hacc.
  destruct (post_list_send_media_group_events env fuel query)
    as (st & Hst & H).
  destruct (iterations_run
              env fuel
              {| media_list := built_list env query;
                 errors := fst (build (site_url env)
                                      (post_list env (clamp query)) 0 0 []);
                 clock := 0; trace := [PostList (clamp query)] |}
              (built_list_distinct env query))
    as (evs & Ht & _ & _ & _ & _ & Ho).
  rewrite <- Hst in Ht, Ho. cbn [media_list trace] in Ht, Ho.
  destruct (post_list env (clamp query)) as [|p posts] eqn:Ep.
  - exists []. rewrite H. cbn. unfold built_list. rewrite Ep.
    split; [reflexivity|auto].
  - destruct H as [[Hne H]|[Hend (report & H & Hs & _)]];
      rewrite H in Hacc |- *; cbn [events_of] in Hacc |- *.
    + exists (media_list st). rewrite Ht in Hacc |- *.
      cbn in Hacc. split; [now apply Ho|discriminate].
    + exists []. rewrite Ht, <- app_assoc in Hacc |- *. cbn in Hacc.
      rewrite forallb_app in Hacc. apply andb_prop in Hacc.
      change (sends ([PostList (clamp query)] ++ evs ++ report))
        with (sends (evs ++ report)).
      rewrite sends_app, Hs, !app_nil_r.
      split; [|reflexivity].
      rewrite <- (Ho (proj1 Hacc)), Hend. symmetry. apply app_nil_r.
Qed.

End Order.

Lemma sends_follow_collected_order_witness :
  exists pending,
    sends (events_of (@post_list_send_media_group
                        insertion_order friendly_env 5 default_query))
    ++ pending
    = built_list friendly_env default_query
    /\ (forall t, @post_list_send_media_group
                    insertion_order friendly_env 5 default_query = Finished t ->
                  pending = []).
Proof.
  apply (@sends_follow_collected_order insertion_order friendly_env 5
                                       default_query).
  vm_compute. reflexivity.
Defined.

(** Twenty-three good items go out in three media groups of 10, 10 and
    3 items. *)
Example twenty_three_items_three_groups :
  exists t,
    @post_list_send_media_group insertion_order friendly_env 3 default_query
    = Finished t
    /\ map (fun batch => length batch)
           (filter (fun batch => 0 <? length batch) (map attempted t))
       = [10; 10; 3].
Proof. eexists. split; vm_compute; reflexivity. Qed.

(** C2 as stated fails after a rejected batch: with a set that yields its
    items in the opposite order, item 21 is sent in the second call and
    item 10, collected before it, in the third. *)
Lemma collected_order_lost_after_rejection :
  (exists t,
      @post_list_send_media_group reverse_order dead_link_env 10 default_query
      = Finished t)
  /\ map ident
       (sends (events_of (@post_list_send_media_group
                            reverse_order dead_link_env 10 default_query)))
     = seq 0 10 ++ rev (seq 12 10) ++ rev (seq 2 10) ++ [1]
  /\ ~ in_collected_order
         (built_list dead_link_env default_query)
         (events_of (@post_list_send_media_group
                       reverse_order dead_link_env 10 default_query)).
Proof.
  split; [eexists; vm_compute; reflexivity|].
  split; [vm_compute; reflexivity|].
  intros H.
  specialize (H (seq 0 10) 10 (seq 11 10) 21 [] (seq 0 10)
                (rev (seq 12 9) ++ rev (seq 2 10) ++ [1])).
  assert (Hin : In 10 (seq 0 10)).
  { apply H; [vm_compute; reflexivity|vm_compute; reflexivity|].
    apply in_or_app. right. right. apply in_or_app. right.
    apply in_or_app. left. apply in_rev. rewrite rev_involutive.
    apply in_seq. lia. }
  apply in_seq in Hin. lia.
Qed.

Lemma rejected_batch_probed_witness :
  map fst (heads (since twelve_pending
                        (@loop_body insertion_order dead_link_env
                                    twelve_pending)))
  = map item_number (seq 0 10)
  /\ errors (@loop_body insertion_order dead_link_env twelve_pending) = 1
  /\ map ident
       (media_list (@loop_body insertion_order dead_link_env twelve_pending))
     = seq 1 11.
Proof.
  pose proof (@rejected_batch_probed
                insertion_order dead_link_env twelve_pending
                (items_distinct 0 12) ltac:(simpl; lia) eq_refl) as H.
  cbv zeta in H. destruct H as (H1 & H2 & _).
  split; [exact H1|]. split; [exact H2|]. reflexivity.
Defined.


(** ** Items that are never retried *)

Lemma iterations_next {py_set : PySet} env n st :
  media_list st <> [] ->
  iterations env (S n) st = iterations env n (loop_body env st).
Proof.
  intros H. cbn [iterations]. now destruct (media_list st).
Qed.

Lemma good_probes batch : forall st el,
  exists c',
    @probe_batch rejecting_twelve_env batch st el
    = ({| media_list := media_list st; errors := errors st; clock := c';
          trace := trace st
                   ++ flat_map (fun m => [ChatAction TYPING; Head m 200%Z])
                               batch |},
       el).
Proof.
  induction batch as [|m batch IH]; intros st el.
  - exists (clock st). cbn [probe_batch flat_map]. rewrite app_nil_r.
    now destruct st.
  - cbn [probe_batch requests_head rejecting_twelve_env].
    change (bad_status 200) with false. cbv iota.
    destruct (IH (tick (log st [ChatAction TYPING; Head m 200%Z])) el)
      as (c' & ->).
    exists c'. state_simpl. cbn [flat_map]. now rewrite <- app_assoc.
Qed.

Lemma twelve_pass e c t :
  exists c',
    @loop_body insertion_order rejecting_twelve_env
               {| media_list := map item_number (seq 0 12);
                  errors := e; clock := c; trace := t |}
    = {| media_list := map item_number (seq 0 12);
         errors := e; clock := c'; trace := t ++ rejected_pass |}.
Proof.
  unfold loop_body. state_simpl.
  change (1 <? length (map item_number (seq 0 12))) with true.
  change (firstn 10 (map item_number (seq 0 12)))
    with (map item_number (seq 0 10)).
  cbn [send_media_group rejecting_twelve_env]. cbv iota.
  match goal with
  | |- context [probe_batch _ ?batch ?st ?el] =>
      destruct (good_probes batch st el) as (c' & ->)
  end.
  exists c'. state_simpl.
  change (set_difference (map item_number (seq 0 12)) [])
    with (map item_number (seq 0 12)).
  unfold rejected_pass. now rewrite <- !app_assoc.
Qed.

Lemma twelve_run n : forall e c t,
  exists c',
    @iterations insertion_order rejecting_twelve_env n
                {| media_list := map item_number (seq 0 12);
                   errors := e; clock := c; trace := t |}
    = {| media_list := map item_number (seq 0 12);
         errors := e; clock := c';
         trace := t ++ concat (repeat rejected_pass n) |}.
Proof.
  induction n as [|n IH]; intros e c t.
  - exists c. cbn [iterations repeat concat]. now rewrite app_nil_r.
  - rewrite iterations_next by discriminate.
    destruct (twelve_pass e c t) as (c1 & ->).
    destruct (IH e c1 (t ++ rejected_pass)) as (c' & ->).
    exists c'. cbn [repeat concat]. now rewrite <- app_assoc.
Qed.

Lemma rejected_passes_sends n m :
  In m (sends (concat (repeat rejected_pass n))) -> ident m < 10.
Proof.
  induction n as [|n IH]; [intros []|].
  cbn [repeat concat]. rewrite sends_app. intros H.
  apply in_app_or in H. destruct H as [H|H]; [|now apply IH].
  change (sends rejected_pass) with (map item_number (seq 0 10)) in H.
  apply in_map_iff in H. destruct H as (x & <- & Hx).
  apply in_seq in Hx. cbn [ident item_number]. lia.
Qed.

(** C4, on the code: twelve posts, a platform that rejects every media
    group, urls that all answer 200, and a set that yields its items in
    the order of the list.  Every pass makes its send attempt on items 0
    to 9 and probes them; nothing is removed, so the next pass does the
    same.  Items 10 and 11 stay pending and are in no send attempt,
    however many passes are made. *)
Theorem rejected_rest_never_sent fuel query :
  let st := @iterations insertion_order rejecting_twelve_env fuel
                        (start_state rejecting_twelve_env query) in
  let t := PostList (clamp query) :: concat (repeat rejected_pass fuel) in
  @post_list_send_media_group insertion_order rejecting_twelve_env fuel query
  = Running t
  /\ media_list st = map item_number (seq 0 12)
  /\ errors st = 0
  /\ (forall m, In m (sends t) -> ident m < 10)
  /\ In (item_number 10) (media_list st) /\ ~ In (item_number 10) (sends t)
  /\ In (item_number 11) (media_list st) /\ ~ In (item_number 11) (sends t).
Proof.
  intros st t.
  assert (Hstart : start_state rejecting_twelve_env query
                   = {| media_list := map item_number (seq 0 12);
                        errors := 0; clock := 0;
                        trace := [PostList (clamp query)] |}) by reflexivity.
  destruct (twelve_run fuel 0 0 [PostList (clamp query)]) as (c' & Hrun).
  assert (Hst : st = {| media_list := map item_number (seq 0 12);
                        errors := 0; clock := c'; trace := t |}).
  { unfold st. rewrite Hstart. exact Hrun. }
  assert (Hsends : forall m, In m (sends t) -> ident m < 10).
  { intros m Hm. now apply (rejected_passes_sends fuel). }
  split.
  - destruct (@post_list_send_media_group_events
                insertion_order rejecting_twelve_env fuel query)
      as (st' & Hst' & H).
    change (post_list rejecting_twelve_env (clamp query))
      with (map post_number (seq 0 12)) in H.
    cbn [map seq] in H.
    assert (E : st' = st) by exact Hst'.
    rewrite E, Hst in H. cbn [media_list trace] in H.
    destruct H as [[_ H]|[H _]]; [exact H|discriminate].
  - rewrite Hst. cbn [media_list errors].
    split; [reflexivity|]. split; [reflexivity|]. split; [exact Hsends|].
    split; [do 10 right; now left|].
    split; [intros H; apply Hsends in H; cbn in H; lia|].
    split; [do 11 right; now left|].
    intros H; apply Hsends in H; cbn in H; lia.
Qed.


(* ================================================================== *)
(** * Calls of the image board *)

Lemma backend_calls_app a b :
  backend_calls (a ++ b) = backend_calls a ++ backend_calls b.
Proof. apply flat_map_app. Qed.

(** With kind [int] the extractor always returns: nothing when the text
    has no occurrence, an integer otherwise. *)
Lemma extract_int_returns name text :
  plain name = true ->
  (Re.findall (option_pattern name Char.is_digit) text = []
   /\ extract_option_from_string name text (Some TInt) = Return (text, None))
  \/ exists z,
       extract_option_from_string name text (Some TInt)
       = Return (Re.sub_empty (option_pattern name Char.is_digit) text,
                 Some (VInt z)).
Proof.
  intros Hplain. rewrite (extract_plain _ _ _ Hplain).
  simpl kind. simpl type_class.
  destruct (Re.findall (option_pattern name Char.is_digit) text)
    as [|m ms] eqn:Ef; [now left|right].
  assert (Hin : In m (Re.findall_from (option_pattern name Char.is_digit) 0 text)).
  { unfold Re.findall in Ef. rewrite Ef. now left. }
  apply findall_from_matches in Hin. destruct Hin as (s' & k & Hm & ->).
  apply option_pattern_sound in Hm.
  destruct Hm as (name' & seps & val & -> & Hne & Hval).
  assert (Hd : existsb Char.is_digit (name' ++ seps ++ val) = true).
  { rewrite !existsb_app. destruct val as [|v val]; [contradiction|].
    simpl in *. apply andb_prop in Hval. destruct Hval as [-> _].
    now rewrite !orb_true_r. }
  apply digit_runs_some in Hd.
  destruct (digit_runs (name' ++ seps ++ val)) as [|out outs];
    [contradiction|eauto].
Qed.

Section Calls.

Context {py_set : PySet}.
Variable env : Env.

Lemma probe_batch_calls batch : forall st el,
  backend_calls (trace (fst (probe_batch env batch st el)))
  = backend_calls (trace st).
Proof.
  induction batch as [|m batch IH]; intros st el; [reflexivity|].
  cbn [probe_batch].
  destruct (bad_status _); rewrite IH; cbn [count_error tick log trace];
    rewrite backend_calls_app; apply app_nil_r.
Qed.

Lemma loop_body_calls st :
  backend_calls (trace (loop_body env st)) = backend_calls (trace st).
Proof.
  unfold loop_body. state_simpl.
  destruct (1 <? length (media_list st)).
  - destruct (send_media_group env (clock st) _).
    + state_simpl. rewrite !backend_calls_app. simpl. now rewrite !app_nil_r.
    + pose proof (probe_batch_calls
                    (firstn 10 (media_list st))
                    (tick (log (log st [ChatAction UPLOAD_PHOTO])
                               [SendMediaGroup (firstn 10 (media_list st))
                                               false])) []) as Hp.
      destruct (probe_batch env _ _ _) as [st' el]. state_simpl.
      simpl fst in Hp. rewrite Hp. state_simpl.
      rewrite !backend_calls_app. simpl. now rewrite !app_nil_r.
  - destruct (media_list st) as [|m rest].
    + state_simpl. rewrite backend_calls_app. apply app_nil_r.
    + destruct (send_photo env (clock st) (media m) (caption m));
        state_simpl; rewrite !backend_calls_app; simpl;
        now rewrite !app_nil_r.
Qed.

Lemma iterations_calls n : forall st,
  backend_calls (trace (iterations env n st)) = backend_calls (trace st).
Proof.
  induction n as [|n IH]; intros st; [reflexivity|]. simpl.
  destruct (media_list st); [reflexivity|].
  now rewrite IH, loop_body_calls.
Qed.

(** The image board is called once, with the limit capped at 100. *)
Lemma post_list_called_once fuel query :
  backend_calls (events_of (post_list_send_media_group env fuel query))
  = [clamp query].
Proof.
  destruct (post_list_send_media_group_events env fuel query)
    as (st & Hst & H).
  assert (Hc : backend_calls (trace st) = [clamp query]).
  { rewrite Hst, iterations_calls. reflexivity. }
  destruct (post_list env (clamp query)); [now rewrite H|].
  destruct H as [[_ H]|[_ (report & H & _ & _ & Hr)]]; rewrite H;
    cbn [events_of]; [exact Hc|].
  rewrite backend_calls_app, Hc.
  assert (Hn : backend_calls report = []).
  { clear -Hr. induction Hr as [|e l He _ IH]; [reflexivity|].
    simpl. rewrite IH. destruct e as [a|r|q'|b ok|i c|i ok]; try reflexivity.
    now contradiction (He q'). }
  now rewrite Hn.
Qed.

Lemma clamp_limit query :
  limit (clamp query) = Z.min (limit query) 100
  /\ page (clamp query) = page query
  /\ tags (clamp query) = tags query.
Proof.
  unfold clamp. destruct (limit query >? 100)%Z eqn:E; simpl.
  - apply Z.gtb_lt in E. repeat split. lia.
  - repeat split. pose proof (Zgt_cases (limit query) 100) as H.
    rewrite E in H. lia.
Qed.

(** C9.  Whatever query comes in, the image board is called once and
    with the limit capped at 100.  A search with some text returns and
    calls the image board once: a limit option above 100 reaches it as
    100, and the page is 0 when the text has no page option. *)
Theorem limit_clamped_page_default fuel :
  (forall query,
      exists q,
        backend_calls (events_of (post_list_send_media_group env fuel query))
        = [q]
        /\ limit q = Z.min (limit query) 100
        /\ page q = page query /\ tags q = tags query)
  /\ (forall args,
        nonempty (join (lit " ") args) = true ->
        exists text1 page_ text2 limit_ o q,
          extract_option_from_string (lit "page") (join (lit " ") args)
                                     (Some TInt)
          = Return (text1, page_)
          /\ extract_option_from_string (lit "limit") text1 (Some TInt)
             = Return (text2, limit_)
          /\ search_danbooru env fuel args = Return o
          /\ backend_calls (events_of o) = [q]
          /\ (limit q <= 100)%Z
          /\ (forall l, limit_ = Some (VInt l) -> (l > 100)%Z ->
                        limit q = 100%Z)
          /\ (Re.findall (option_pattern (lit "page") Char.is_digit)
                         (join (lit " ") args) = [] ->
              page q = 0%Z)).
Proof.
  split.
  - intros query. exists (clamp query).
    split; [apply post_list_called_once|apply clamp_limit].
  - intros args Hne. unfold search_danbooru. rewrite Hne. cbn [negb].
    set (text := join (lit " ") args).
    assert (Hpage : exists text1 page_,
               extract_option_from_string (lit "page") text (Some TInt)
               = Return (text1, page_)
               /\ (Re.findall (option_pattern (lit "page") Char.is_digit) text
                   = [] -> page_ = None)).
    { destruct (extract_int_returns (lit "page") text eq_refl)
        as [[Hf H]|(z & H)].
      - eauto.
      - do 2 eexists. split; [exact H|]. intros Hf. exfalso.
        rewrite (extract_plain (lit "page") text (Some TInt) eq_refl) in H.
        simpl kind in H. simpl type_class in H.
        rewrite Hf in H. discriminate. }
    destruct Hpage as (text1 & page_ & Hp & Hnone).
    assert (Hlimit : exists text2 limit_,
               extract_option_from_string (lit "limit") text1 (Some TInt)
               = Return (text2, limit_)).
    { destruct (extract_int_returns (lit "limit") text1 eq_refl)
        as [[_ H]|(z & H)]; eauto. }
    destruct Hlimit as (text2 & limit_ & Hl).
    exists text1, page_, text2, limit_.
    rewrite Hp. cbn [bind]. rewrite Hl. cbn [bind].
    set (q0 := set_tags _ _).
    match goal with
    | |- exists o q, _ /\ _ /\ Return ?x = Return o /\ _ =>
        exists x, (clamp q0)
    end.
    split; [reflexivity|]. split; [reflexivity|]. split; [reflexivity|].
    assert (Hcalls : forall start,
               backend_calls start = [] ->
               backend_calls
                 (events_of (after start
                                   (post_list_send_media_group env fuel q0)))
               = [clamp q0]).
    { intros start Hs.
      pose proof (post_list_called_once fuel q0) as Hc.
      destruct (post_list_send_media_group env fuel q0);
        cbn [events_of after] in Hc |- *;
        now rewrite backend_calls_app, Hs, Hc. }
    split.
    { apply Hcalls. now destruct (2 <? _). }
    destruct (clamp_limit q0) as (Hlim & Hpg & _).
    rewrite Hlim, Hpg. split; [lia|]. split.
    + intros l -> Hgt. unfold q0, with_options. cbn [limit set_tags].
      unfold int_option at 1. cbn [truthy].
      destruct (l =? 0)%Z eqn:E; [apply Z.eqb_eq in E; lia|].
      cbn [negb limit set_limit]. lia.
    + intros Hf. unfold q0, with_options. rewrite (Hnone Hf).
      cbn [int_option page set_tags].
      now destruct (int_option limit_).
Qed.

End Calls.

Lemma limit_clamped_page_default_witness :
  exists o q,
    @search_danbooru insertion_order friendly_env 5
                     [lit "cat,"; lit "dog"; lit "limit=500"] = Return o
    /\ backend_calls (events_of o) = [q]
    /\ limit q = 100%Z /\ page q = 0%Z.
Proof.
  destruct (proj2 (@limit_clamped_page_default insertion_order friendly_env 5)
                  [lit "cat,"; lit "dog"; lit "limit=500"] eq_refl)
    as (text1 & page_ & text2 & limit_ & o & q
        & Hp & Hl & Ho & Hq & _ & Hlim & Hpage).
  exists o, q. split; [exact Ho|]. split; [exact Hq|].
  vm_compute in Hp. injection Hp as <- <-.
  vm_compute in Hl. injection Hl as <- <-.
  split; [apply (Hlim 500%Z eq_refl); lia|apply Hpage; reflexivity].
Defined.



(* ================================================================== *)
(** * More properties of danbooru.py *)

Lemma option_pattern_has_sep name cls s n :
  option_pattern name cls s = Some n -> existsb is_sep s = true.
Proof.
  unfold option_pattern. intros H.
  destruct (Re.literal_ci name s) as [rest|] eqn:El; [|discriminate].
  destruct (literal_ci_sound _ _ _ El) as (name' & -> & _).
  pose proof (span_app is_sep rest) as Hs.
  pose proof (span_run is_sep rest) as Hr.
  destruct (Re.span is_sep rest) as [seps rest'].
  destruct (Re.span cls rest') as [val tail].
  destruct seps as [|s0 seps]; [discriminate|].
  simpl in Hs, Hr. apply andb_prop in Hr. destruct Hr as [Hs0 _].
  rewrite existsb_app, <- Hs. simpl. rewrite Hs0. apply orb_true_r.
Qed.


Lemma findall_sep_free name cls s : forall skip,
  sep_free s = true ->
  Re.findall_from (option_pattern name cls) skip s = [].
Proof.
  unfold sep_free.
  induction s as [|c s IH]; intros skip H; [reflexivity|].
  cbn [Re.findall_from]. pose proof H as H'. simpl in H'.
  apply andb_prop in H'. destruct H' as [_ Hs].
  destruct skip as [|k]; [|now apply IH].
  destruct (option_pattern name cls (c :: s)) as [[|k]|] eqn:E;
    try now apply IH.
  apply option_pattern_has_sep in E. exfalso.
  apply existsb_exists in E. destruct E as (x & Hx & Hsep).
  rewrite forallb_forall in H. specialize (H x Hx). now rewrite Hsep in H.
Qed.

(** X1.  A text that holds none of the separators (space, [=], [:]) has
    no occurrence of an option whose name is made of plain characters:
    the extractor returns the text as it is, with no value, whatever the
    kind. *)
Theorem extract_without_separator name text type_ :
  plain name = true ->
  sep_free text = true ->
  extract_option_from_string name text type_ = Return (text, None).
Proof.
  intros Hplain H. rewrite (extract_plain _ _ _ Hplain). unfold Re.findall.
  now rewrite findall_sep_free.
Qed.

Lemma extract_without_separator_witness :
  extract_option_from_string (lit "page") (lit "page2,cat_ears") (Some TInt)
  = Return (lit "page2,cat_ears", None).
Proof.
  exact (extract_without_separator (lit "page") (lit "page2,cat_ears")
                                   (Some TInt) eq_refl eq_refl).
Defined.

(* digits *)
Lemma digit_value_range c :
  Char.is_digit c = true -> (0 <= digit_value c <= 9)%Z.
Proof.
  unfold Char.is_digit, Char.between, digit_value. intros H.
  apply andb_prop in H. destruct H as [H1 H2].
  apply N.leb_le in H1. apply N.leb_le in H2.
  generalize dependent (Char.code c). intros n H1 H2. lia.
Qed.

Lemma int_of_digits_fold s : forall acc,
  forallb Char.is_digit s = true -> (0 <= acc)%Z ->
  (0 <= fold_left (fun a c => 10 * a + digit_value c)%Z s acc)%Z.
Proof.
  induction s as [|c s IH]; intros acc H Ha; [exact Ha|].
  cbn [fold_left forallb] in *. apply andb_prop in H. destruct H as [Hc Hs].
  apply IH; [exact Hs|]. pose proof (digit_value_range c Hc). lia.
Qed.

Lemma int_of_digits_nonneg s :
  forallb Char.is_digit s = true -> (0 <= int_of_digits s)%Z.
Proof. intros H. apply int_of_digits_fold; [exact H|lia]. Qed.

Lemma firstn_span cls s :
  firstn (length (fst (Re.span cls s))) s = fst (Re.span cls s).
Proof.
  rewrite <- (span_app cls s) at 2. apply firstn_exact. reflexivity.
Qed.

Lemma digit_runs_digits s out :
  In out (digit_runs s) -> forallb Char.is_digit out = true.
Proof.
  unfold digit_runs, Re.findall. intros H.
  apply findall_from_matches in H. destruct H as (s' & k & Hm & ->).
  unfold Re.plus in Hm.
  pose proof (firstn_span Char.is_digit s') as Hf.
  pose proof (span_run Char.is_digit s') as Hr.
  destruct (fst (Re.span Char.is_digit s')) as [|d run]; [discriminate|].
  injection Hm as <-. cbn [length] in Hf. rewrite Hf. exact Hr.
Qed.

Lemma sub_from_length m s : forall skip,
  length (Re.sub_from m skip s) <= length s.
Proof.
  induction s as [|c s IH]; intros skip; [reflexivity|].
  cbn [Re.sub_from]. destruct skip as [|k].
  - destruct (m (c :: s)) as [[|k]|]; simpl;
      try (specialize (IH 0); lia). specialize (IH k). lia.
  - specialize (IH k). simpl. lia.
Qed.


Lemma extract_int_facts name text :
  plain name = true ->
  exists residual value,
    extract_option_from_string name text (Some TInt)
    = Return (residual, value)
    /\ (value = None <-> occurrences name text (Some TInt) = [])
    /\ (value = None -> residual = text)
    /\ (value = None \/ exists z, value = Some (VInt z) /\ (0 <= z)%Z).
Proof.
  intros Hplain.
  rewrite (occurrences_plain _ _ _ Hplain), (extract_plain _ _ _ Hplain).
  simpl kind. simpl type_class.
  destruct (Re.findall (option_pattern name Char.is_digit) text)
    as [|m ms] eqn:Ef.
  - exists text, None. repeat split; auto.
  - assert (Hin : In m (Re.findall_from
                          (option_pattern name Char.is_digit) 0 text)).
    { unfold Re.findall in Ef. rewrite Ef. now left. }
    apply findall_from_matches in Hin. destruct Hin as (s' & k & Hm & ->).
    apply option_pattern_sound in Hm.
    destruct Hm as (name' & seps & val & -> & Hne & Hval).
    assert (Hd : existsb Char.is_digit (name' ++ seps ++ val) = true).
    { rewrite !existsb_app. destruct val as [|v val]; [contradiction|].
      simpl in *. apply andb_prop in Hval. destruct Hval as [-> _].
      now rewrite !orb_true_r. }
    apply digit_runs_some in Hd.
    destruct (digit_runs (name' ++ seps ++ val)) as [|out outs] eqn:Er;
      [contradiction|].
    do 2 eexists. split; [reflexivity|].
    split; [split; discriminate|]. split; [discriminate|].
    right. eexists. split; [reflexivity|].
    apply int_of_digits_nonneg. apply (digit_runs_digits (name' ++ seps ++ val)).
    rewrite Er. now left.
Qed.

(** X2.  With kind [int] and a name of plain characters the extractor
    raises no exception: it returns no value exactly when the text has no
    occurrence, and then the text as it is; otherwise the value is an
    integer that is not negative. *)
Theorem extract_int_value name text :
  plain name = true ->
  exists residual value,
    extract_option_from_string name text (Some TInt)
    = Return (residual, value)
    /\ (value = None <-> occurrences name text (Some TInt) = [])
    /\ (value = None -> residual = text)
    /\ (value = None \/ exists z, value = Some (VInt z) /\ (0 <= z)%Z).
Proof. apply extract_int_facts. Qed.

Lemma extract_int_value_witness :
  exists residual value,
    extract_option_from_string (lit "limit") (lit "cat limit=07") (Some TInt)
    = Return (residual, value)
    /\ (value = None
        <-> occurrences (lit "limit") (lit "cat limit=07") (Some TInt) = [])
    /\ (value = None -> residual = lit "cat limit=07")
    /\ (value = None \/ exists z, value = Some (VInt z) /\ (0 <= z)%Z).
Proof.
  exact (extract_int_value (lit "limit") (lit "cat limit=07") eq_refl).
Defined.




Lemma seen_iff seen t : existsb (str_eqb t) seen = true <-> In t seen.
Proof.
  rewrite existsb_exists. split.
  - intros (x & Hx & E). apply str_eqb_eq in E. now subst.
  - intros H. exists t. split; [exact H|]. now apply str_eqb_eq.
Qed.

Lemma dedup_in terms : forall seen t,
  In t (Spec.dedup seen terms) <-> In t terms /\ ~ In t seen.
Proof.
  induction terms as [|u terms IH]; intros seen t; simpl; [tauto|].
  destruct (existsb (str_eqb u) seen) eqn:E.
  - apply seen_iff in E. rewrite IH. split; [tauto|].
    intros [[<-|H] Hn]; [contradiction|tauto].
  - assert (Hu : ~ In u seen).
    { intros H. apply seen_iff in H. congruence. }
    simpl. rewrite IH. simpl. split.
    + intros [<-|[H Hn]]; [tauto|]. split; [tauto|]. tauto.
    + intros [[<-|H] Hn]; [now left|].
      destruct (list_eq_dec ascii_dec u t) as [->|Hne]; [now left|right].
      split; [exact H|]. intros [E'|H']; [contradiction|contradiction].
Qed.

Lemma dedup_NoDup terms : forall seen, NoDup (Spec.dedup seen terms).
Proof.
  induction terms as [|u terms IH]; intros seen; simpl; [constructor|].
  destruct (existsb (str_eqb u) seen); [apply IH|].
  constructor; [|apply IH].
  intros H. apply dedup_in in H. simpl in H. tauto.
Qed.

Lemma dedup_length terms : forall seen,
  length (Spec.dedup seen terms) <= length terms.
Proof.
  induction terms as [|u terms IH]; intros seen; simpl; [lia|].
  destruct (existsb (str_eqb u) seen); simpl.
  - specialize (IH seen). lia.
  - specialize (IH (u :: seen)). lia.
Qed.

Lemma normal_form_normalize term :
  normal_form term = Spec.normalize Spec.word_keep term.
Proof. apply maps_normalize. Qed.

(** X4.  A term is in the output of the filter exactly when it is the
    non-empty normal form of an input term. *)
Theorem filter_terms_members terms t :
  In t (filter_terms terms)
  <-> t <> [] /\ exists term, In term terms /\ normal_form term = t.
Proof.
  rewrite filter_terms_refines. unfold Spec.filter_terms.
  rewrite dedup_in, filter_In, in_map_iff. split.
  - intros [[(term & <- & Hin) Hne] _]. split.
    + intros E. rewrite E in Hne. discriminate.
    + exists term. split; [exact Hin|apply normal_form_normalize].
  - intros [Hne (term & Hin & <-)]. split; [|tauto]. split.
    + exists term. split; [symmetry; apply normal_form_normalize|exact Hin].
    + now destruct (normal_form term).
Qed.

Lemma filter_terms_facts terms :
  NoDup (filter_terms terms)
  /\ (forall t, In t (filter_terms terms) ->
                t <> [] /\ Forall (fun c => Char.is_word c = true) t)
  /\ length (filter_terms terms) <= length terms.
Proof.
  rewrite filter_terms_refines. unfold Spec.filter_terms.
  split; [apply dedup_NoDup|]. split.
  - intros t Ht. apply dedup_in in Ht. destruct Ht as [Ht _].
    apply filter_In in Ht. destruct Ht as [Ht Hne]. split.
    + intros E. rewrite E in Hne. discriminate.
    + apply in_map_iff in Ht. destruct Ht as (s & <- & _).
      apply normalize_clean.
  - eapply Nat.le_trans; [apply dedup_length|].
    eapply Nat.le_trans; [apply filter_length_le|]. now rewrite length_map.
Qed.

(** X5.  The output of the filter has no duplicate and no empty term, its
    terms hold word characters only, and it has no more terms than the
    input. *)
Theorem filter_terms_output terms :
  NoDup (filter_terms terms)
  /\ (forall t, In t (filter_terms terms) ->
                t <> [] /\ Forall (fun c => Char.is_word c = true) t)
  /\ length (filter_terms terms) <= length terms.
Proof. apply filter_terms_facts. Qed.

Lemma dedup_seen_filter terms : forall seen1 seen2,
  Spec.dedup (seen1 ++ seen2) terms
  = filter (fun t => negb (existsb (str_eqb t) seen1))
           (Spec.dedup seen2 terms).
Proof.
  induction terms as [|u terms IH]; intros seen1 seen2; [reflexivity|].
  cbn [Spec.dedup]. rewrite existsb_app.
  destruct (existsb (str_eqb u) seen2) eqn:E2.
  - rewrite orb_true_r. apply IH.
  - rewrite orb_false_r. cbn [filter].
    destruct (existsb (str_eqb u) seen1) eqn:E1; cbn [negb].
    + rewrite <- IH. apply dedup_seen_ext. intros t.
      rewrite !existsb_app. cbn [existsb].
      destruct (str_eqb t u) eqn:Et; [|reflexivity].
      apply str_eqb_eq in Et. subst t. now rewrite E1.
    + f_equal. rewrite <- IH. apply dedup_seen_ext. intros t.
      cbn [existsb]. rewrite !existsb_app. cbn [existsb].
      destruct (str_eqb t u), (existsb (str_eqb t) seen1); reflexivity.
Qed.

Lemma dedup_app a : forall seen b,
  Spec.dedup seen (a ++ b)
  = Spec.dedup seen a ++ Spec.dedup (a ++ seen) b.
Proof.
  induction a as [|u a IH]; intros seen b; [reflexivity|].
  cbn [app Spec.dedup].
  destruct (existsb (str_eqb u) seen) eqn:E.
  - rewrite IH. f_equal. apply dedup_seen_ext. intros t. cbn [existsb].
    destruct (str_eqb t u) eqn:Et; [|reflexivity].
    apply str_eqb_eq in Et. subst t. rewrite existsb_app, E.
    apply orb_true_r.
  - cbn [app]. f_equal. rewrite IH. f_equal.
    apply dedup_seen_ext. intros t. rewrite !existsb_app. cbn [existsb].
    rewrite existsb_app.
    destruct (str_eqb t u), (existsb (str_eqb t) a); reflexivity.
Qed.

(** X6.  The filter of two lists put together is the filter of the first,
    followed by what the filter of the second adds to it. *)
Theorem filter_terms_app a b :
  filter_terms (a ++ b)
  = filter_terms a
    ++ filter (fun t => negb (existsb (str_eqb t) (filter_terms a)))
              (filter_terms b).
Proof.
  rewrite !filter_terms_refines. unfold Spec.filter_terms.
  rewrite map_app, filter_app, dedup_app. f_equal.
  set (La := filter nonempty (map (Spec.normalize Spec.word_keep) a)).
  set (Lb := filter nonempty (map (Spec.normalize Spec.word_keep) b)).
  rewrite dedup_seen_filter. apply filter_ext. intros t. f_equal.
  apply eq_true_iff_eq. rewrite !seen_iff, dedup_in. simpl. tauto.
Qed.


Lemma delivered_app a b : delivered (a ++ b) = delivered a ++ delivered b.
Proof. apply flat_map_app. Qed.

Lemma failures_app a b : failures (a ++ b) = failures a + failures b.
Proof.
  unfold failures. rewrite heads_app, !filter_app, !length_app. lia.
Qed.

Lemma probing_facts evs :
  Forall probing evs ->
  sends evs = [] /\ delivered evs = [] /\ filter refused evs = []
  /\ Forall group_size_ok evs /\ backend_calls evs = [].
Proof.
  induction 1 as [|e evs He _ (I1 & I2 & I3 & I4 & I5)]; [now repeat split|].
  destruct e; try contradiction; cbn; repeat split; auto.
Qed.

Ltac state_simpl_in H :=
  cbn [log tick count_error with_media_list media_list clock trace errors]
    in H.

Section Passes.

Context {py_set : PySet}.
Variable env : Env.

Lemma probe_batch_probing batch : forall st el,
exists evs,
  trace (fst (probe_batch env batch st el)) = trace st ++ evs
  /\ Forall probing evs.
Proof.
induction batch as [|m batch IH]; intros st el.
- exists []. simpl. now rewrite app_nil_r.
- cbn [probe_batch].
  set (code := requests_head env (clock st) (media m)).
  destruct (bad_status code);
    match goal with
    | |- context [probe_batch env batch ?s ?l] =>
        destruct (IH s l) as (evs & Ht & Hp)
    end;
    exists ([ChatAction TYPING; Head m code] ++ evs);
    rewrite Ht; cbn [count_error tick log trace]; rewrite <- app_assoc;
    (split; [reflexivity|]); repeat constructor; exact Hp.
Qed.

(** The three ways through the body of the loop. *)
Lemma pass_cases st :
media_list st <> [] ->
(exists m ok,
    media_list st = [m]
    /\ trace (loop_body env st)
       = trace st ++ [ChatAction UPLOAD_PHOTO; SendPhoto m ok]
    /\ media_list (loop_body env st) = []
    /\ errors (loop_body env st)
       = if ok then errors st else S (errors st))
\/ (1 < length (media_list st)
    /\ trace (loop_body env st)
       = trace st ++ [ChatAction UPLOAD_PHOTO;
                      SendMediaGroup (firstn 10 (media_list st)) true]
    /\ media_list (loop_body env st) = skipn 10 (media_list st)
    /\ errors (loop_body env st) = errors st)
\/ (1 < length (media_list st)
    /\ exists probes,
         trace (loop_body env st)
         = trace st ++ [ChatAction UPLOAD_PHOTO;
                        SendMediaGroup (firstn 10 (media_list st)) false]
                    ++ probes
         /\ Forall probing probes
         /\ map fst (heads probes) = firstn 10 (media_list st)
         /\ errors (loop_body env st)
            = errors st + length (filter bad_probe (heads probes))
         /\ media_list (loop_body env st)
            = set_difference (media_list st)
                             (map fst (filter bad_probe (heads probes)))
         /\ Forall (fun p => exists c,
                        snd p = requests_head env c (media (fst p)))
                   (heads probes)).
Proof.
intros Hne.
destruct (media_list st) as [|m0 [|m1 rest]] eqn:El; [contradiction| |].
- left. exists m0, (send_photo env (clock st) (media m0) (caption m0)).
  split; [reflexivity|]. unfold loop_body. state_simpl. rewrite El.
  change (1 <? length [m0]) with false. cbv iota.
  destruct (send_photo _ _ _ _); state_simpl; rewrite <- app_assoc; auto.
- right. rewrite <- El.
  assert (Hlen : 1 < length (media_list st)) by (rewrite El; simpl; lia).
  destruct (send_media_group env (clock st) (firstn 10 (media_list st)))
    eqn:Es.
  + left. split; [exact Hlen|]. now apply loop_body_accepted.
  + right. split; [exact Hlen|].
    destruct (loop_body_rejected env st Hlen Es)
      as (probes & Ht & Hh & _ & He & Hm & Hc).
    exists probes. repeat split; auto.
    (* the probes are probing events *)
    unfold loop_body in Ht. state_simpl_in Ht.
    apply Nat.ltb_lt in Hlen. rewrite Hlen, Es in Ht.
    match type of Ht with
    | context [probe_batch env ?b ?s ?l] =>
        destruct (probe_batch_probing b s l) as (evs & Hev & Hp);
        destruct (probe_batch env b s l) as [st' el]
    end.
    state_simpl_in Ht. cbn [fst] in Hev. rewrite Hev in Ht.
    state_simpl_in Ht. rewrite <- !app_assoc in Ht.
    apply app_inv_head in Ht. cbn in Ht.
    injection Ht as <-. exact Hp.
Qed.

End Passes.


Lemma distinct_NoDup l : distinct l -> NoDup l.
Proof. apply NoDup_map_inv. Qed.

Lemma NoDup_map_filter {A B} (f : A -> B) p l :
  NoDup (map f l) -> NoDup (map f (filter p l)).
Proof.
  induction l as [|x l IH]; simpl; [tauto|].
  intros H. inversion H as [|? ? Hx Hl]; subst.
  destruct (p x); [|now apply IH]. simpl. constructor; [|now apply IH].
  intros Hin. apply Hx. apply in_map_iff in Hin.
  destruct Hin as (y & Hy & Hin). apply filter_In in Hin.
  apply in_map_iff. exists y. tauto.
Qed.

Lemma filter_drops {A} (f : A -> bool) l x :
  In x l -> f x = false -> length (filter f l) < length l.
Proof.
  induction l as [|y l IH]; simpl; [tauto|].
  intros [->|Hin] Hx.
  - rewrite Hx. pose proof (filter_length_le f l). lia.
  - specialize (IH Hin Hx). destruct (f y); simpl; lia.
Qed.

(** Taking a duplicate-free part of the pending objects away leaves as
    many objects fewer. *)
Lemma removed_count l sub :
  distinct l -> NoDup sub -> incl sub l ->
  length (filter (fun m => negb (mem_object m sub)) l) + length sub
  = length l.
Proof.
  intros Hd Hs Hi.
  pose proof (filter_length (fun m => mem_object m sub) l) as Hp.
  assert (Hlen : length (filter (fun m => mem_object m sub) l) = length sub).
  { apply Permutation_length, NoDup_Permutation.
    - apply NoDup_filter, distinct_NoDup, Hd.
    - exact Hs.
    - intros x. rewrite filter_In. split.
      + intros [Hx Hm]. now apply (mem_object_distinct l).
      + intros Hx. split; [now apply Hi|now apply mem_object_in]. }
  lia.
Qed.

Section Summaries.

Context {py_set : PySet}.
Variable env : Env.

(** One pass: what it logs and how it moves the counts. *)
Lemma pass_summary st :
media_list st <> [] ->
distinct (media_list st) ->
exists evs,
  trace (loop_body env st) = trace st ++ evs
  /\ errors (loop_body env st) = errors st + failures evs
  /\ length (media_list (loop_body env st))
     + length (delivered evs) + failures evs
     = length (media_list st)
  /\ Forall group_size_ok evs
  /\ (forallb accepted evs = true -> heads evs = [])
  /\ backend_calls evs = [].
Proof.
intros Hne Hd.
destruct (pass_cases env st Hne)
  as [(m & ok & Hm & Ht & Hl & He)
     |[(Hlen & Ht & Hl & He)
      |(Hlen & probes & Ht & Hp & Hh & He & Hl & Hc)]].
- exists [ChatAction UPLOAD_PHOTO; SendPhoto m ok].
  rewrite Hl, He, Hm. split; [exact Ht|].
  destruct ok; cbn;
    (split; [lia|]); (split; [lia|]); (split; [repeat constructor|]);
    split; reflexivity.
- exists [ChatAction UPLOAD_PHOTO;
          SendMediaGroup (firstn 10 (media_list st)) true].
  rewrite Hl, He. split; [exact Ht|].
  assert (Hdel : delivered [ChatAction UPLOAD_PHOTO;
                            SendMediaGroup (firstn 10 (media_list st)) true]
                 = firstn 10 (media_list st)) by (cbn; apply app_nil_r).
  assert (Hf : failures [ChatAction UPLOAD_PHOTO;
                         SendMediaGroup (firstn 10 (media_list st)) true]
               = 0) by reflexivity.
  rewrite Hdel, Hf. split; [lia|]. split.
  { pose proof (firstn_skipn 10 (media_list st)) as E.
    apply (f_equal (@length _)) in E. rewrite length_app in E. lia. }
  split.
  { constructor; [exact I|]. constructor; [|constructor].
    unfold group_size_ok. rewrite length_firstn. lia. }
  split; reflexivity.
- destruct (probing_facts probes Hp) as (_ & Hdel & Href & Hgs & Hbc).
  exists ([ChatAction UPLOAD_PHOTO;
           SendMediaGroup (firstn 10 (media_list st)) false] ++ probes).
  assert (Hf : failures ([ChatAction UPLOAD_PHOTO;
                          SendMediaGroup (firstn 10 (media_list st)) false]
                           ++ probes)
               = length (filter bad_probe (heads probes))).
  { rewrite failures_app. unfold failures at 2. rewrite Href. cbn. lia. }
  rewrite Hf, delivered_app, Hdel, He. split; [exact Ht|].
  split; [reflexivity|]. split; [|split; [|split]].
  + rewrite Hl. cbn [delivered flat_map delivered_by app length].
    set (failed := map fst (filter bad_probe (heads probes))).
    rewrite (Permutation_length (set_difference_perm _ failed Hd)).
    assert (Hfl : length failed = length (filter bad_probe (heads probes)))
      by apply length_map.
    assert (Hcount : length (filter (fun m => negb (mem_object m failed))
                                    (media_list st))
                     + length failed = length (media_list st)).
    { apply removed_count; [exact Hd| |].
      - unfold failed. apply NoDup_map_filter. rewrite Hh.
        apply distinct_NoDup in Hd.
        rewrite <- (firstn_skipn 10 (media_list st)) in Hd.
        now apply NoDup_app_remove_r in Hd.
      - intros x Hx. unfold failed in Hx. apply in_map_iff in Hx.
        destruct Hx as (p & <- & Hp'). apply filter_In in Hp'.
        rewrite <- (firstn_skipn 10 (media_list st)).
        apply in_or_app. left. rewrite <- Hh. apply in_map. tauto. }
    lia.
  + constructor; [exact I|]. constructor; [|exact Hgs].
    unfold group_size_ok. rewrite length_firstn. lia.
  + cbn. discriminate.
  + rewrite backend_calls_app, Hbc. reflexivity.
Qed.

(** Any number of passes. *)
Lemma run_summary n : forall st,
distinct (media_list st) ->
exists evs,
  trace (iterations env n st) = trace st ++ evs
  /\ errors (iterations env n st) = errors st + failures evs
  /\ length (media_list (iterations env n st))
     + length (delivered evs) + failures evs
     = length (media_list st)
  /\ Forall group_size_ok evs
  /\ (forallb accepted evs = true -> heads evs = [])
  /\ backend_calls evs = [].
Proof.
induction n as [|n IH]; intros st Hd.
- exists []. cbn. rewrite app_nil_r. repeat split; auto; lia.
- cbn [iterations]. destruct (media_list st) as [|m0 rest] eqn:El.
  + exists []. cbn. rewrite app_nil_r, El. repeat split; auto.
  + rewrite <- El in *.
    assert (Hne : media_list st <> []) by now rewrite El.
    destruct (pass_summary st Hne Hd) as (e1 & Ht1 & He1 & Hc1 & Hg1 & Hh1 & Hb1).
    destruct (loop_body_step env st Hne Hd) as (_ & _ & _ & _ & Hd1 & _).
    destruct (IH (loop_body env st) Hd1)
      as (e2 & Ht2 & He2 & Hc2 & Hg2 & Hh2 & Hb2).
    exists (e1 ++ e2).
    rewrite Ht2, Ht1, He2, He1, <- app_assoc, delivered_app, failures_app,
      length_app, backend_calls_app, Hb1, Hb2.
    split; [reflexivity|]. split; [lia|]. split; [lia|].
    split; [now apply Forall_app|]. split; [|reflexivity].
    rewrite forallb_app, heads_app. intros H. apply andb_prop in H.
    now rewrite Hh1, Hh2.
Qed.

(** Under [rejections_explained] every pass shortens the pending list. *)
Lemma pass_shrinks built st :
rejections_explained env built ->
incl (media_list st) built ->
distinct (media_list st) ->
media_list st <> [] ->
length (media_list (loop_body env st)) < length (media_list st).
Proof.
intros Hex Hin Hd Hne.
destruct (pass_cases env st Hne)
  as [(m & ok & Hm & _ & Hl & _)
     |[(Hlen & _ & Hl & _)
      |(Hlen & probes & Ht & _ & Hh & _ & Hl & Hc)]].
- rewrite Hl, Hm. simpl. lia.
- rewrite Hl, length_skipn. lia.
- assert (Hrej : send_media_group env (clock st)
                                  (firstn 10 (media_list st)) = false).
  { destruct (send_media_group env (clock st) (firstn 10 (media_list st)))
      eqn:E; [|reflexivity].
    destruct (loop_body_accepted env st Hlen E) as (Ht' & _).
    rewrite Ht in Ht'. apply app_inv_head in Ht'. discriminate. }
  assert (Hb : incl (firstn 10 (media_list st)) built).
  { intros x Hx. apply Hin. rewrite <- (firstn_skipn 10 (media_list st)).
    apply in_or_app. now left. }
  destruct (Hex _ _ Hb Hrej) as (m & Hm & Hbad).
  set (failed := map fst (filter bad_probe (heads probes))) in *.
  assert (Hf : In m failed).
  { rewrite <- Hh in Hm. apply in_map_iff in Hm.
    destruct Hm as (p & <- & Hp). unfold failed. apply in_map.
    apply filter_In. split; [exact Hp|].
    rewrite Forall_forall in Hc. destruct (Hc p Hp) as (c & Hs).
    unfold bad_probe. rewrite Hs. apply Hbad. }
  rewrite Hl, (Permutation_length (set_difference_perm _ failed Hd)).
  apply (filter_drops _ _ m).
  + rewrite <- (firstn_skipn 10 (media_list st)).
    apply in_or_app. left. exact Hm.
  + now rewrite (mem_object_in _ _ Hf).
Qed.

Lemma run_ends built n : forall st,
rejections_explained env built ->
incl (media_list st) built ->
distinct (media_list st) ->
length (media_list st) <= n ->
media_list (iterations env n st) = [].
Proof.
induction n as [|n IH]; intros st Hex Hin Hd Hlen.
- cbn [iterations].
  destruct (media_list st) eqn:El; [reflexivity|simpl in Hlen; lia].
- cbn [iterations]. destruct (media_list st) as [|m0 rest] eqn:El;
    [exact El|].
  rewrite <- El in *.
  assert (Hne : media_list st <> []) by now rewrite El.
  pose proof (pass_shrinks built st Hex Hin Hd Hne) as Hs.
  destruct (loop_body_step env st Hne Hd) as (_ & _ & _ & Hi1 & Hd1 & _).
  apply IH; auto.
  + eapply incl_tran; eassumption.
  + lia.
Qed.

End Summaries.


Lemma build_summary site posts : forall next errors0 ml,
  fst (build site posts next errors0 ml)
  = errors0 + length (filter (unusable site) posts)
  /\ length (snd (build site posts next errors0 ml))
     = length ml + length (filter (fun p => negb (unusable site p)) posts)
  /\ (Forall (fun m => startswith (lit "http") (media m) = true) ml ->
      Forall (fun m => startswith (lit "http") (media m) = true)
             (snd (build site posts next errors0 ml)))
  /\ (map ident ml = seq (next - length ml) (length ml) -> length ml <= next ->
      map ident (snd (build site posts next errors0 ml))
      = seq (next - length ml)
            (length (snd (build site posts next errors0 ml))))
  /\ (forall m, In m (snd (build site posts next errors0 ml)) ->
                In m ml
                \/ exists p, In p posts
                             /\ image_url_of site p = Some (media m)
                             /\ caption m = site ++ lit "/posts/"
                                                 ++ str_of_int (post_id p)).
Proof.
  induction posts as [|p posts IH]; intros next errors0 ml.
  - cbn [build fst snd filter length].
    split; [lia|]. split; [lia|]. split; [auto|]. split; [auto|auto].
  - cbn [build filter].
    assert (Hun : unusable site p = negb (usable (image_url_of site p)))
      by reflexivity.
    destruct (image_url_of site p) as [u|] eqn:Eu.
    + destruct (usable (Some u)) eqn:Eus; rewrite !Hun; cbn [negb].
      * destruct (IH (S next) errors0
                     (ml ++ [{| ident := next; media := u;
                                caption := site ++ lit "/posts/"
                                                ++ str_of_int (post_id p) |}]))
          as (I1 & I2 & I3 & I4 & I5).
        split; [rewrite I1; reflexivity|].
        split; [rewrite I2, length_app; cbn [length]; lia|]. split; [|split].
        -- intros Hml. apply I3. apply Forall_app. split; [exact Hml|].
           constructor; [|constructor]. cbn [media].
           cbn [usable] in Eus. apply andb_prop in Eus. tauto.
        -- intros Hid Hle. rewrite length_app in I4. cbn [length] in I4.
           replace (S next - (length ml + 1)) with (next - length ml) in I4
             by lia.
           apply I4; [|lia].
           rewrite map_app, Hid. cbn [map ident].
           replace (length ml + 1) with (length ml + 1) by lia.
           rewrite seq_app. f_equal. cbn. f_equal. lia.
        -- intros m Hm. apply I5 in Hm. destruct Hm as [Hm|Hm].
           ++ apply in_app_or in Hm. destruct Hm as [Hm|[<-|[]]];
                [now left|].
              right. exists p. cbn. auto.
           ++ right. destruct Hm as (q & Hq & Hrest). exists q.
              split; [now right|exact Hrest].
      * destruct (IH next (S errors0) ml) as (I1 & I2 & I3 & I4 & I5).
        split; [rewrite I1; cbn [length]; lia|].
        split; [rewrite I2; lia|]. split; [exact I3|]. split; [exact I4|].
        intros m Hm. apply I5 in Hm. destruct Hm as [Hm|Hm]; [now left|].
        right. destruct Hm as (q & Hq & Hrest). exists q.
        split; [now right|exact Hrest].
    + rewrite !Hun. cbn [usable negb].
      destruct (IH next (S errors0) ml) as (I1 & I2 & I3 & I4 & I5).
      split; [rewrite I1; cbn [length]; lia|].
      split; [rewrite I2; lia|]. split; [exact I3|]. split; [exact I4|].
      intros m Hm. apply I5 in Hm. destruct Hm as [Hm|Hm]; [now left|].
      right. destruct Hm as (q & Hq & Hrest). exists q.
      split; [now right|exact Hrest].
Qed.

Section CallTrace.

Context {py_set : PySet}.
Variable env : Env.

(** The call as its loop and its last words. *)
Lemma call_trace fuel query :
let st := iterations env fuel (start_state env query) in
match post_list env (clamp query) with
| [] =>
    post_list_send_media_group env fuel query
    = Finished [PostList (clamp query);
                ReplyText (lit "Nothing found on page "
                           ++ str_of_int (page (clamp query)))]
| _ :: _ =>
    (media_list st <> []
     /\ post_list_send_media_group env fuel query = Running (trace st))
    \/ (media_list st = []
        /\ post_list_send_media_group env fuel query
           = Finished (trace st
                       ++ final_report (errors st) (limit (clamp query))))
end.
Proof.
intros st. subst st.
unfold post_list_send_media_group, start_state, built_list.
fold (clamp query).
destruct (post_list env (clamp query)) as [|p posts]; [reflexivity|].
destruct (build (site_url env) (p :: posts) 0 0 []) as [e0 ml0].
cbn [fst snd]. unfold while_media_list.
destruct (media_list (iterations env fuel _)) eqn:El; [right|left].
- split; [reflexivity|]. unfold final_report, availability_report.
  now destruct (Nat.eqb _ 0).
- split; [discriminate|reflexivity].
Qed.

Lemma run_loop_events n : forall st,
exists evs,
  trace (iterations env n st) = trace st ++ evs /\ Forall loop_event evs.
Proof.
induction n as [|n IH]; intros st.
- exists []. cbn. now rewrite app_nil_r.
- cbn [iterations]. destruct (media_list st) as [|m0 rest] eqn:El.
  + exists []. now rewrite app_nil_r.
  + assert (Hne : media_list st <> []) by now rewrite El.
    destruct (IH (loop_body env st)) as (e2 & Ht2 & Hl2).
    destruct (pass_cases env st Hne)
      as [(m & ok & _ & Ht & _)
         |[(_ & Ht & _)|(_ & probes & Ht & Hp & _)]];
      rewrite Ht2, Ht, <- app_assoc; eexists; (split; [reflexivity|]);
      apply Forall_app; split; auto.
    * repeat constructor.
    * repeat constructor.
    * constructor; [exact I|]. constructor; [exact I|].
      eapply Forall_impl; [|exact Hp]. intros e He. now destruct e.
Qed.

End CallTrace.


Lemma reply_facts report :
  Forall is_reply report ->
  sends report = [] /\ heads report = [] /\ delivered report = []
  /\ failures report = 0 /\ Forall group_size_ok report
  /\ forallb accepted report = true.
Proof.
  induction 1 as [|e l (s & ->) _ (I1 & I2 & I3 & I4 & I5 & I6)].
  - split; [reflexivity|]. split; [reflexivity|]. split; [reflexivity|].
    split; [reflexivity|]. split; [constructor|reflexivity].
  - change (ReplyText s :: l) with ([ReplyText s] ++ l).
    rewrite sends_app, heads_app, delivered_app, failures_app, forallb_app.
    rewrite I1, I2, I3, I4, I6.
    split; [reflexivity|]. split; [reflexivity|]. split; [reflexivity|].
    split; [reflexivity|]. split; [|reflexivity].
    constructor; [exact I|exact I5].
Qed.

Lemma final_report_reply count limit_ : Forall is_reply (final_report count limit_).
Proof.
  unfold final_report. destruct (Nat.eqb count 0); repeat constructor.
  now eexists.
Qed.

Section CallFacts.

Context {py_set : PySet}.
Variable env : Env.

Lemma iterations_done n st : media_list st = [] -> iterations env n st = st.
Proof. intros H. destruct n; [reflexivity|]. cbn. now rewrite H. Qed.

Lemma start_distinct query : distinct (media_list (start_state env query)).
Proof. apply built_list_distinct. Qed.

(** The events of a call: the backend call, the events of the loop, the
  last words. *)
Lemma call_summary fuel query :
exists evs report,
  events_of (post_list_send_media_group env fuel query)
  = PostList (clamp query) :: evs ++ report
  /\ trace (iterations env fuel (start_state env query))
     = PostList (clamp query) :: evs
  /\ Forall is_reply report
  /\ (forall t, post_list_send_media_group env fuel query = Finished t ->
                media_list (iterations env fuel (start_state env query)) = [])
  /\ (media_list (iterations env fuel (start_state env query)) = [] ->
      exists t, post_list_send_media_group env fuel query = Finished t)
  /\ (post_list env (clamp query) <> [] ->
      media_list (iterations env fuel (start_state env query)) = [] ->
      report = final_report
                 (errors (iterations env fuel (start_state env query)))
                 (limit (clamp query))).
Proof.
pose proof (call_trace env fuel query) as H. cbv zeta in H.
destruct (run_loop_events env fuel (start_state env query))
  as (evs & Ht & _).
cbn [start_state trace] in Ht. cbn [app] in Ht.
destruct (post_list env (clamp query)) as [|p posts] eqn:Ep.
- assert (Hb : media_list (start_state env query) = []).
  { cbn. unfold built_list. now rewrite Ep. }
  clear Ht. rewrite (iterations_done _ _ Hb).
  exists [], [ReplyText (lit "Nothing found on page "
                         ++ str_of_int (page (clamp query)))].
  rewrite H. cbn [events_of app].
  split; [reflexivity|]. split; [reflexivity|].
  split; [repeat constructor; now eexists|].
  split; [intros _ _; exact Hb|]. split; [eauto|]. intros Hne.
  now contradiction Hne.
- destruct H as [[Hne H]|[Hend H]]; rewrite H; cbn [events_of].
  + exists evs, []. rewrite app_nil_r. split; [exact Ht|].
    split; [exact Ht|]. split; [constructor|].
    split; [discriminate|]. split; [intros E; contradiction|].
    intros _ E. contradiction.
  + exists evs, (final_report
                   (errors (iterations env fuel (start_state env query)))
                   (limit (clamp query))).
    rewrite Ht. split; [reflexivity|]. split; [reflexivity|].
    split; [apply final_report_reply|]. split; [auto|]. split; [eauto|].
    reflexivity.
Qed.

End CallFacts.


(** Built items and unusable posts add up to the posts. *)
Lemma built_count env query :
  length (built_list env query)
  + length (filter (unusable (site_url env)) (post_list env (clamp query)))
  = length (post_list env (clamp query)).
Proof.
  unfold built_list.
  destruct (build_summary (site_url env) (post_list env (clamp query)) 0 0 [])
    as (_ & H2 & _).
  rewrite H2. cbn [length].
  pose proof (filter_length (unusable (site_url env))
                            (post_list env (clamp query))). lia.
Qed.

(** The build phase appends the items of the usable posts, in the order of
    the posts, and numbers them as it goes. *)
Lemma build_items site posts : forall next errors0 ml,
  map ident (snd (build site posts next errors0 ml))
  = map ident ml
    ++ seq next (length (filter (fun p => negb (unusable site p)) posts))
  /\ map (fun m => Some (media m)) (snd (build site posts next errors0 ml))
     = map (fun m => Some (media m)) ml
       ++ map (image_url_of site)
              (filter (fun p => negb (unusable site p)) posts)
  /\ map caption (snd (build site posts next errors0 ml))
     = map caption ml
       ++ map (fun p => site ++ lit "/posts/" ++ str_of_int (post_id p))
              (filter (fun p => negb (unusable site p)) posts).
Proof.
  induction posts as [|p posts IH]; intros next errors0 ml.
  - cbn [build snd filter map length seq]. now rewrite !app_nil_r.
  - cbn [build filter].
    assert (Hun : unusable site p = negb (usable (image_url_of site p)))
      by reflexivity.
    destruct (image_url_of site p) as [u|] eqn:Eu.
    + destruct (usable (Some u)) eqn:Eus; rewrite Hun; cbn [negb].
      * destruct (IH (S next) errors0
                     (ml ++ [{| ident := next; media := u;
                                caption := site ++ lit "/posts/"
                                                ++ str_of_int (post_id p) |}]))
          as (I1 & I2 & I3).
        rewrite I1, I2, I3, !map_app, <- !app_assoc.
        cbn [map ident media caption length seq app]. rewrite Eu. auto.
      * apply IH.
    + rewrite Hun. cbn [usable negb]. apply IH.
Qed.

(** X7.  The build phase makes one item for every post with an http url
    and no other, in the order of the posts: the items are numbered from
    0, the url and the caption of the item at a place are those of the
    usable post at that place, every url starts with http, and usable and
    unusable posts add up to the posts. *)
Theorem built_items env query :
  let site := site_url env in
  let posts := post_list env (clamp query) in
  let kept := filter (fun p => negb (unusable site p)) posts in
  map ident (built_list env query) = seq 0 (length kept)
  /\ map (fun m => Some (media m)) (built_list env query)
     = map (image_url_of site) kept
  /\ map caption (built_list env query)
     = map (fun p => site ++ lit "/posts/" ++ str_of_int (post_id p)) kept
  /\ Forall (fun m => startswith (lit "http") (media m) = true)
            (built_list env query)
  /\ length kept + length (filter (unusable site) posts) = length posts.
Proof.
  intros site posts kept. unfold built_list. fold site posts.
  destruct (build_items site posts 0 0 []) as (H1 & H2 & H3).
  destruct (build_summary site posts 0 0 []) as (_ & _ & H4 & _).
  split; [exact H1|]. split; [exact H2|]. split; [exact H3|].
  split; [apply H4; constructor|].
  unfold kept. pose proof (filter_length (unusable site) posts). lia.
Qed.

Section CallProperties.

Context {py_set : PySet}.
Variable env : Env.

(** X8.  When no item could be built the call sends and probes nothing and
  ends at once, whatever the bound on the passes: without posts it says
  that nothing was found on the page, otherwise that all the posts are
  unavailable. *)
Theorem nothing_to_send fuel query :
built_list env query = [] ->
post_list_send_media_group env fuel query
= Finished [PostList (clamp query);
            ReplyText (nothing_sent_reply (post_list env (clamp query))
                                          (clamp query))].
Proof.
intros Hb. pose proof (call_trace env fuel query) as H. cbv zeta in H.
assert (Hs : media_list (start_state env query) = []) by exact Hb.
rewrite (iterations_done env _ _ Hs) in H.
pose proof (built_count env query) as Hcount.
rewrite Hb in Hcount. cbn [length] in Hcount.
pose proof (build_summary (site_url env) (post_list env (clamp query))
                          0 0 []) as (He & _).
destruct (post_list env (clamp query)) as [|p posts] eqn:Ep; [exact H|].
destruct H as [[Hne _]|[_ H]]; [contradiction|].
rewrite H. cbn [start_state trace errors]. rewrite Ep, He, Hcount.
reflexivity.
Qed.

(** X9.  Every media group the call sends holds two to ten items. *)
Theorem media_group_sizes fuel query batch ok :
In (SendMediaGroup batch ok)
   (events_of (post_list_send_media_group env fuel query)) ->
2 <= length batch <= 10.
Proof.
destruct (call_summary env fuel query) as (evs & report & He & Ht & Hr & _).
destruct (run_summary env fuel _ (start_distinct env query))
  as (evs' & Ht' & _ & _ & Hg & _).
rewrite Ht in Ht'. cbn in Ht'. injection Ht' as <-.
destruct (reply_facts report Hr) as (_ & _ & _ & _ & Hg' & _).
rewrite He. intros [H|H]; [discriminate|].
apply in_app_or in H. rewrite Forall_forall in Hg, Hg'.
destruct H as [H|H]; [apply (Hg _ H)|apply (Hg' _ H)].
Qed.

(** X10.  No url is probed unless a media group was rejected. *)
Theorem probes_follow_rejection fuel query :
forallb accepted (events_of (post_list_send_media_group env fuel query))
= true ->
heads (events_of (post_list_send_media_group env fuel query)) = [].
Proof.
destruct (call_summary env fuel query) as (evs & report & He & Ht & Hr & _).
destruct (run_summary env fuel _ (start_distinct env query))
  as (evs' & Ht' & _ & _ & _ & Hh & _).
rewrite Ht in Ht'. cbn in Ht'. injection Ht' as <-.
destruct (reply_facts report Hr) as (_ & Hh' & _).
rewrite He. cbn [forallb accepted andb]. rewrite forallb_app.
intros H. apply andb_prop in H.
change (PostList (clamp query) :: evs ++ report)
  with ([PostList (clamp query)] ++ evs ++ report).
rewrite !heads_app, Hh', (Hh (proj1 H)). reflexivity.
Qed.

(** X11.  Only built items are sent, and when the call has finished every
  built item was in a send attempt. *)
Theorem built_items_attempted fuel query :
incl (sends (events_of (post_list_send_media_group env fuel query)))
     (built_list env query)
/\ (forall t, post_list_send_media_group env fuel query = Finished t ->
              incl (built_list env query) (sends t)).
Proof.
destruct (call_summary env fuel query)
  as (evs & report & He & Ht & Hr & Hfin & _).
destruct (iterations_run env fuel _ (start_distinct env query))
  as (evs' & Ht' & Hs & _ & _ & Hk & _).
rewrite Ht in Ht'. cbn in Ht'. injection Ht' as <-.
destruct (reply_facts report Hr) as (Hs' & _).
assert (Hsends : sends (events_of (post_list_send_media_group env fuel query))
                 = sends evs).
{ rewrite He.
  change (PostList (clamp query) :: evs ++ report)
    with ([PostList (clamp query)] ++ evs ++ report).
  rewrite !sends_app, Hs'. cbn. apply app_nil_r. }
split.
- rewrite Hsends. exact Hs.
- intros t Hf m Hm. specialize (Hfin t Hf).
  rewrite Hf in Hsends. cbn [events_of] in Hsends. rewrite Hsends.
  destruct (Hk m Hm) as [H|H]; [|exact H].
  rewrite Hfin in H. contradiction.
Qed.

(** X12.  When the call has finished, every post is accounted for once:
  its item was delivered, or it failed (a bad probe, a refused single
  photo), or the post had no usable url. *)
Theorem finished_accounting fuel query t :
post_list_send_media_group env fuel query = Finished t ->
length (delivered t) + failures t
+ length (filter (unusable (site_url env)) (post_list env (clamp query)))
= length (post_list env (clamp query)).
Proof.
intros Hf.
destruct (call_summary env fuel query)
  as (evs & report & He & Ht & Hr & Hfin & _).
destruct (run_summary env fuel _ (start_distinct env query))
  as (evs' & Ht' & _ & Hc & _).
rewrite Ht in Ht'. cbn in Ht'. injection Ht' as <-.
destruct (reply_facts report Hr) as (_ & _ & Hd' & Hf' & _).
rewrite (Hfin t Hf) in Hc. cbn [length start_state media_list] in Hc.
rewrite Hf in He. cbn [events_of] in He. rewrite He.
change (PostList (clamp query) :: evs ++ report)
  with ([PostList (clamp query)] ++ evs ++ report).
rewrite !delivered_app, !failures_app, Hd', Hf', app_nil_r.
change (delivered [PostList (clamp query)]) with (@nil Media).
change (failures [PostList (clamp query)]) with 0.
pose proof (built_count env query) as Hcount.
cbn [app length] in Hc |- *. lia.
Qed.

(** X13.  When the call has finished on some posts, its last words report
  the unusable posts and the failures of the loop together, and only
  when there are any; the loop itself says nothing to the user. *)
Theorem finished_report fuel query t :
post_list env (clamp query) <> [] ->
post_list_send_media_group env fuel query = Finished t ->
exists evs,
  t = PostList (clamp query) :: evs
      ++ final_report
           (length (filter (unusable (site_url env))
                           (post_list env (clamp query)))
            + failures evs)
           (limit (clamp query))
  /\ Forall loop_event evs.
Proof.
intros Hne Hf.
destruct (call_summary env fuel query)
  as (evs & report & He & Ht & _ & Hfin & _ & Hrep).
destruct (run_summary env fuel _ (start_distinct env query))
  as (evs' & Ht' & Herr & _).
destruct (run_loop_events env fuel (start_state env query))
  as (evs'' & Ht'' & Hl).
rewrite Ht in Ht', Ht''. cbn in Ht', Ht''.
injection Ht' as <-. injection Ht'' as <-.
rewrite Hf in He. cbn [events_of] in He.
exists evs. split; [|exact Hl].
rewrite He, (Hrep Hne (Hfin t Hf)), Herr. do 3 f_equal.
cbn [start_state errors].
now destruct (build_summary (site_url env) (post_list env (clamp query))
                            0 0 []) as (-> & _).
Qed.

(** X14.  When every rejection has a cause the probes find, the call
  finishes within as many passes as there are built items. *)
Theorem explained_rejections_end fuel query :
rejections_explained env (built_list env query) ->
length (built_list env query) <= fuel ->
exists t, post_list_send_media_group env fuel query = Finished t.
Proof.
intros Hex Hlen.
destruct (call_summary env fuel query) as (_ & _ & _ & _ & _ & _ & Hend & _).
apply Hend.
apply (run_ends env (built_list env query)); auto.
- apply incl_refl.
- apply start_distinct.
Qed.

End CallProperties.

Lemma nothing_to_send_witness :
  @post_list_send_media_group insertion_order ftp_source_env 0 default_query
  = Finished [PostList default_query;
              ReplyText (lit "1 of the request 5 are not publicly available")].
Proof.
  exact (@nothing_to_send insertion_order ftp_source_env 0 default_query
                          eq_refl).
Defined.

Lemma media_group_sizes_witness :
  2 <= length (map item_number (seq 20 3)) <= 10.
Proof.
  apply (@media_group_sizes insertion_order friendly_env 3 default_query
                            (map item_number (seq 20 3)) true).
  vm_compute. do 6 right. left. reflexivity.
Defined.


Lemma with_options_range page_ limit_ :
  natural_option page_ -> natural_option limit_ ->
  (1 <= limit (with_options default_query page_ limit_))%Z
  /\ (0 <= page (with_options default_query page_ limit_))%Z
  /\ tags (with_options default_query page_ limit_) = None.
Proof.
  intros [->|(p & -> & Hp)] [->|(l & -> & Hl)];
    unfold with_options, int_option; cbn [truthy];
    repeat match goal with
           | |- context [(?z =? 0)%Z] =>
               let E := fresh in
               destruct (z =? 0)%Z eqn:E;
               [apply Z.eqb_eq in E|apply Z.eqb_neq in E]
           end;
    cbn; repeat split; lia.
Qed.

Section Queries.

Context {py_set : PySet}.
Variable env : Env.

Lemma after_calls start o :
backend_calls start = [] ->
backend_calls (events_of (after start o))
= backend_calls (events_of o).
Proof.
intros Hs. destruct o; cbn [events_of after];
  now rewrite backend_calls_app, Hs.
Qed.


(** X16.  The latest posts are asked for without exception, also when no
  argument is given: the call is that of the batch sender on one query,
  finished or not.  The query has no tags; the image board is called
  once, with a limit from 1 to 100 and a page that is not negative; a
  page or a limit of 0, like a missing one, leaves the defaults 0 and 5. *)
Theorem latest_query fuel args :
exists text1 page_ text2 limit_ q,
  extract_option_from_string (lit "page") (join (lit " ") args) (Some TInt)
  = Return (text1, page_)
  /\ extract_option_from_string (lit "limit") text1 (Some TInt)
     = Return (text2, limit_)
  /\ latest env fuel args
     = Return (after [ChatAction TYPING]
                     (post_list_send_media_group env fuel q))
  /\ backend_calls
       (events_of (after [ChatAction TYPING]
                         (post_list_send_media_group env fuel q)))
     = [clamp q]
  /\ tags (clamp q) = None
  /\ (1 <= limit (clamp q) <= 100)%Z /\ (0 <= page (clamp q))%Z
  /\ (page_ = None \/ page_ = Some (VInt 0) -> page q = 0%Z)
  /\ (limit_ = None \/ limit_ = Some (VInt 0) -> limit q = 5%Z).
Proof.
unfold latest.
destruct (extract_int_facts (lit "page") (join (lit " ") args) eq_refl)
  as (text1 & page_ & -> & _ & _ & Hp).
cbn [bind].
destruct (extract_int_facts (lit "limit") text1 eq_refl)
  as (text2 & limit_ & Hx & _ & _ & Hl).
rewrite Hx. cbn [bind].
set (q0 := with_options _ _ _).
exists text1, page_, text2, limit_, q0.
split; [reflexivity|]. split; [exact Hx|]. split; [reflexivity|].
split; [rewrite after_calls; [apply post_list_called_once|reflexivity]|].
destruct (clamp_limit q0) as (Hlim & Hpg & Htg).
destruct (with_options_range page_ limit_ Hp Hl) as (R1 & R2 & R3).
rewrite Hlim, Hpg, Htg. unfold q0.
change {| limit := 5; page := 0; tags := None |} with default_query.
split; [exact R3|]. split; [lia|]. split; [exact R2|].
split.
- intros [-> | ->]; unfold with_options; cbn [int_option truthy Z.eqb negb];
    now destruct (int_option limit_).
- intros [-> | ->]; unfold with_options; cbn [int_option truthy Z.eqb negb];
    now destruct (int_option page_).
Qed.

End Queries.



Lemma dead_link_explained :
  rejections_explained dead_link_env (built_list dead_link_env default_query).
Proof.
  intros c batch Hincl Hrej. cbn [dead_link_env send_media_group] in Hrej.
  apply negb_false_iff in Hrej. unfold mem_object in Hrej.
  apply existsb_exists in Hrej. destruct Hrej as (x & Hx & E).
  unfold same_object in E. apply Nat.eqb_eq in E.
  assert (H0 : In (item_number 0) (built_list dead_link_env default_query))
    by (vm_compute; now left).
  pose proof (distinct_inj _ _ _ (built_list_distinct _ _) H0
                           (Hincl _ Hx) E) as <-.
  exists (item_number 0). split; [exact Hx|]. intros c'. reflexivity.
Qed.

Lemma probes_follow_rejection_witness :
  heads (events_of (@post_list_send_media_group
                      insertion_order friendly_env 3 default_query)) = [].
Proof.
  apply (@probes_follow_rejection insertion_order friendly_env 3
                                  default_query).
  vm_compute. reflexivity.
Defined.

Lemma finished_accounting_witness :
  length (delivered (events_of dead_link_run))
  + failures (events_of dead_link_run)
  + length (filter (unusable (site_url dead_link_env))
                   (post_list dead_link_env (clamp default_query)))
  = length (post_list dead_link_env (clamp default_query)).
Proof.
  apply (@finished_accounting reverse_order dead_link_env 10 default_query).
  vm_compute. reflexivity.
Defined.

Lemma finished_report_witness :
  exists evs,
    events_of dead_link_run
    = PostList (clamp default_query) :: evs
      ++ final_report
           (length (filter (unusable (site_url dead_link_env))
                           (post_list dead_link_env (clamp default_query)))
            + failures evs)
           (limit (clamp default_query))
    /\ Forall loop_event evs.
Proof.
  apply (@finished_report reverse_order dead_link_env 10 default_query).
  - discriminate.
  - vm_compute. reflexivity.
Defined.

Lemma explained_rejections_end_witness :
  exists t,
    @post_list_send_media_group reverse_order dead_link_env 22 default_query
    = Finished t.
Proof.
  apply (@explained_rejections_end reverse_order dead_link_env 22
                                   default_query dead_link_explained).
  vm_compute. repeat constructor.
Defined.


(* ================================================================== *)
(** * translate.py: properties *)

Module TranslateFacts.

Import Translate.

(** C5.  The direction string follows the table for the four presence
  combinations, and it is what the backend is called with. *)
Theorem direction_string_table
  translator_translate text source target none_from none_to :
source <> [] -> target <> [] ->
given none_from = false -> given none_to = false ->
uses_direction translator_translate text none_from none_to (lit "en")
/\ uses_direction translator_translate text (Some source) none_to
                  (source ++ lit "-en")
/\ uses_direction translator_translate text (Some source) (Some target)
                  (source ++ lit "-" ++ target)
/\ uses_direction translator_translate text none_from (Some target) target.
Proof.
intros Hs Ht Hf Hto.
destruct source as [|s0 source]; [contradiction|].
destruct target as [|t0 target]; [contradiction|].
unfold uses_direction, translate_text, direction_of.
cbn [given shown]. rewrite Hf, Hto. cbn [andb negb].
repeat split.
Qed.

Lemma direction_string_table_witness :
uses_direction echo (Some (lit "hi")) None None (lit "en")
/\ uses_direction echo (Some (lit "hi")) (Some (lit "fr")) None (lit "fr-en")
/\ uses_direction echo (Some (lit "hi")) (Some (lit "fr")) (Some (lit "de"))
                  (lit "fr-de")
/\ uses_direction echo (Some (lit "hi")) None (Some (lit "de")) (lit "de").
Proof.
exact (direction_string_table echo (Some (lit "hi")) (lit "fr") (lit "de")
                              None None
                              ltac:(discriminate) ltac:(discriminate)
                              eq_refl eq_refl).
Defined.

Section Abort.

Variable get_option_from_string : str -> str -> option str * str.
Variable LANGUAGES : str -> bool.
Variable translator_translate : option str -> str -> Translated.

Lemma read_options_codes primary secondary p s lang_from lang_to :
read_options get_option_from_string LANGUAGES primary secondary
= Continue (p, s, lang_from, lang_to) ->
absent_or_supported LANGUAGES lang_from
/\ (lang_to = None \/ lang_to = Some (lit "en")
    \/ (given lang_to = true /\ LANGUAGES (shown lang_to) = true)).
Proof.
unfold read_options, absent_or_supported.
destruct (given secondary).
- destruct (get_option_from_string (lit "lf") (shown secondary))
    as [translate_from new_text].
  destruct (given translate_from) eqn:Ef;
    [destruct (LANGUAGES (shown translate_from)) eqn:Lf;
     [|discriminate]|]; cbn [andb negb].
  + destruct (get_option_from_string (lit "lt") _) as [translate_to nt].
    destruct (given translate_to) eqn:Et;
      [destruct (LANGUAGES (shown translate_to)) eqn:Lt;
       [|discriminate]|];
      cbn [andb negb]; intros H; injection H as _ _ <- <-; auto.
  + destruct (get_option_from_string (lit "lt") _) as [translate_to nt].
    destruct (given translate_to) eqn:Et;
      [destruct (LANGUAGES (shown translate_to)) eqn:Lt;
       [|discriminate]|];
      cbn [andb negb]; intros H; injection H as _ _ <- <-; auto.
- intros H. injection H as _ _ <- <-. auto.
Qed.

(** C8.  A given [-lf] code outside the supported set, or a given [-lt]
  code outside it when the source code passed, is reported to the
  user and nothing else happens; and whenever the backend is called,
  its direction is built from codes that were not given, are
  supported, or are the default [en]. *)
Theorem unsupported_language_aborts message secondary :
after_first_space (text message) = Some secondary ->
secondary <> [] ->
(forall code rest,
    get_option_from_string (lit "lf") secondary = (code, rest) ->
    given code = true -> LANGUAGES (shown code) = false ->
    translate get_option_from_string LANGUAGES translator_translate message
    = not_available code)
/\ (forall lang_from rest_from code rest,
      get_option_from_string (lit "lf") secondary = (lang_from, rest_from) ->
      absent_or_supported LANGUAGES lang_from ->
      get_option_from_string
        (lit "lt") (if given lang_from then rest_from else secondary)
      = (code, rest) ->
      given code = true -> LANGUAGES (shown code) = false ->
      translate get_option_from_string LANGUAGES translator_translate message
    = not_available code)
/\ (forall msg text direction,
      In (TranslatorTranslate text direction)
         (translate get_option_from_string LANGUAGES
                    translator_translate msg) ->
      exists lang_from lang_to,
        direction = direction_of lang_from lang_to
        /\ absent_or_supported LANGUAGES lang_from
        /\ (lang_to = None \/ lang_to = Some (lit "en")
            \/ (given lang_to = true
                /\ LANGUAGES (shown lang_to) = true))).
Proof.
intros Hsec Hne.
assert (Hg : given (Some secondary) = true)
  by (destruct secondary; [contradiction|reflexivity]).
split; [|split].
- intros code rest Hget Hc Hl.
  unfold translate, read_options.
  rewrite Hsec, Hg. cbn [shown]. rewrite Hget, Hc, Hl. reflexivity.
- intros lang_from rest_from code rest Hget Hok Hget' Hc Hl.
  unfold translate, read_options.
  rewrite Hsec, Hg. cbn [shown]. rewrite Hget.
  destruct Hok as [Hf|Hf]; rewrite Hf in *.
  + cbn [andb]. cbn [shown]. rewrite Hget', Hc, Hl. reflexivity.
  + rewrite andb_false_r.
    destruct (given lang_from); cbn [shown];
      rewrite Hget', Hc, Hl; reflexivity.
- intros msg text0 direction Hin.
  unfold translate in Hin.
  destruct (read_options _ _ _ _) as [[[[p s] lang_from] lang_to]|events]
    eqn:Er.
  + apply read_options_codes in Er.
    destruct (negb (given p) && negb (given s)).
    * destruct Hin as [Hin|[]]. discriminate.
    * unfold translate_text in Hin. cbn in Hin.
      destruct Hin as [Hin|[Hin|[]]]; [|discriminate].
      inversion Hin as [[Hp Hd]]. exists lang_from, lang_to. tauto.
  + unfold read_options in Er.
    destruct (given (after_first_space (text msg))); [|discriminate].
    destruct (get_option_from_string (lit "lf") _) as [tf nt].
    destruct (given tf && negb (LANGUAGES (shown tf))).
    * cbv iota in Er. injection Er as <-.
      destruct Hin as [Hin|[]]. discriminate.
    * destruct (get_option_from_string (lit "lt") _) as [tt nt'].
      destruct (given tt && negb (LANGUAGES (shown tt))); [|discriminate].
      cbv iota in Er. injection Er as <-.
      destruct Hin as [Hin|[]]. discriminate.
Qed.

End Abort.

Lemma unsupported_language_aborts_witness :
translate leading_flag three_languages echo
          {| text := lit "/translate -lf xx hello";
             reply_to_message := None |}
= [ReplyText (lit "Given language (`xx`) is not available")]
/\ translate leading_flag three_languages echo
             {| text := lit "/translate -lt yy hello";
                reply_to_message := None |}
   = [ReplyText (lit "Given language (`yy`) is not available")].
Proof.
split.
- exact (proj1 (unsupported_language_aborts
                  leading_flag three_languages echo
                  {| text := lit "/translate -lf xx hello";
                     reply_to_message := None |}
                  (lit "-lf xx hello") eq_refl ltac:(discriminate))
               (Some (lit "xx")) (lit "hello") eq_refl eq_refl eq_refl).
- exact (proj1 (proj2 (unsupported_language_aborts
                  leading_flag three_languages echo
                  {| text := lit "/translate -lt yy hello";
                     reply_to_message := None |}
                  (lit "-lt yy hello") eq_refl ltac:(discriminate)))
               None (lit "-lt yy hello") (Some (lit "yy")) (lit "hello")
               eq_refl (or_introl eq_refl) eq_refl eq_refl eq_refl).
Defined.

(** ** More properties *)

Section More.

Variable get_option_from_string : str -> str -> option str * str.
Variable LANGUAGES : str -> bool.
Variable translator_translate : option str -> str -> Translated.

(** What [translate] does once the options are read. *)
Lemma translate_after_options message :
translate get_option_from_string LANGUAGES translator_translate message
= match read_options get_option_from_string LANGUAGES
                     (replied_text message)
                     (after_first_space (text message)) with
  | Returned events => events
  | Continue (p, s, lang_from, lang_to) =>
      if negb (given p) && negb (given s) then
        [ReplyText (lit "You either have to reply to a message or give me some text.")]
      else
        [TranslatorTranslate p (direction_of lang_from lang_to);
         ReplyMarkdown
           (answer (translator_translate p (direction_of lang_from lang_to)))]
  end.
Proof.
unfold translate, replied_text.
destruct (read_options _ _ _ _) as [[[[p s] lf] lt]|events]; [|reflexivity].
destruct (negb (given p) && negb (given s)); reflexivity.
Qed.

(** Without a given primary text, the primary text after the options is
  the secondary text. *)
Lemma read_options_texts primary secondary p s lang_from lang_to :
read_options get_option_from_string LANGUAGES primary secondary
= Continue (p, s, lang_from, lang_to) ->
(given primary = true -> p = primary)
/\ (given primary = false -> given p = given s).
Proof.
unfold read_options. destruct (given secondary) eqn:Es.
- destruct (get_option_from_string (lit "lf") (shown secondary))
    as [tf nt].
  destruct (given tf && negb (LANGUAGES (shown tf))); [discriminate|].
  destruct (get_option_from_string (lit "lt") _) as [tt nt'].
  destruct (given tt && negb (LANGUAGES (shown tt))); [discriminate|].
  intros H. injection H as <- <- _ _.
  destruct (given primary); split; intros; try discriminate; reflexivity.
- intros H. injection H as <- <- _ _. split; [reflexivity|].
  intros ->. now rewrite Es.
Qed.

Lemma read_options_abort primary secondary events :
read_options get_option_from_string LANGUAGES primary secondary
= Returned events ->
exists code, events = not_available code.
Proof.
unfold read_options. destruct (given secondary); [|discriminate].
destruct (get_option_from_string (lit "lf") (shown secondary)) as [tf nt].
destruct (given tf && negb (LANGUAGES (shown tf))).
- intros H. injection H as <-. eauto.
- destruct (get_option_from_string (lit "lt") _) as [tt nt'].
  destruct (given tt && negb (LANGUAGES (shown tt))); [|discriminate].
  intros H. injection H as <-. eauto.
Qed.

(** X17.  The user gets exactly one answer: a plain reply and no call of
  the backend, or one call of the backend, with a text that is not
  empty, followed by the translation. *)
Theorem translate_shape message :
(exists reply,
    translate get_option_from_string LANGUAGES translator_translate message
    = [ReplyText reply])
\/ (exists text direction,
      given text = true
      /\ translate get_option_from_string LANGUAGES translator_translate
                   message
         = [TranslatorTranslate text direction;
            ReplyMarkdown (answer (translator_translate text direction))]).
Proof.
rewrite translate_after_options.
destruct (read_options _ _ _ _) as [[[[p s] lf] lt]|events] eqn:Er.
- destruct (given p) eqn:Ep; cbn [negb andb].
  + right. eauto.
  + apply read_options_texts in Er. destruct Er as [H1 H2].
    destruct (given (replied_text message)) eqn:Eg.
    * rewrite (H1 eq_refl) in Ep. congruence.
    * rewrite <- (H2 eq_refl), Ep. cbn [negb]. left. eauto.
- apply read_options_abort in Er. destruct Er as (code & ->).
  left. unfold not_available. eauto.
Qed.

(** X18.  With text after the command, the backend gets the replied text
  if there is one and else the trailing text without the options found,
  and the direction of the codes found, with [en] for a target that was
  not given. *)
Theorem translate_call_with_text
  message secondary lang_from rest_from lang_to rest_to text direction :
after_first_space (Translate.text message) = Some secondary ->
secondary <> [] ->
get_option_from_string (lit "lf") secondary = (lang_from, rest_from) ->
get_option_from_string
  (lit "lt") (if given lang_from then rest_from else secondary)
= (lang_to, rest_to) ->
In (TranslatorTranslate text direction)
   (translate get_option_from_string LANGUAGES translator_translate
              message) ->
direction
= direction_of lang_from (if given lang_to then lang_to else Some (lit "en"))
/\ text
   = if given (replied_text message) then replied_text message
     else Some (if given lang_to then rest_to
                else if given lang_from then rest_from else secondary).
Proof.
intros Hsec Hne Hlf Hlt. rewrite translate_after_options. rewrite Hsec.
unfold read_options.
assert (Hg : given (Some secondary) = true)
  by (destruct secondary; [contradiction|reflexivity]).
rewrite Hg. cbn [shown]. rewrite Hlf.
destruct (given lang_from && negb (LANGUAGES (shown lang_from)));
  [intros [H|[]]; discriminate|].
assert (Hs : shown (if given lang_from then Some rest_from
                    else Some secondary)
             = if given lang_from then rest_from else secondary)
  by now destruct (given lang_from).
rewrite Hs, Hlt.
destruct (given lang_to && negb (LANGUAGES (shown lang_to)));
  [intros [H|[]]; discriminate|].
match goal with
| |- In _ (if ?c then _ else _) -> _ => destruct c
end; [intros [H|[]]; discriminate|].
intros [H|[H|[]]]; [|discriminate].
injection H as <- <-. split; [reflexivity|].
destruct (given (replied_text message)); [reflexivity|].
now destruct (given lang_to), (given lang_from).
Qed.

(** X19.  Without text after the command, a call of the backend
  translates the replied text, with direction [en]. *)
Theorem translate_call_reply_only message text direction :
given (after_first_space (Translate.text message)) = false ->
In (TranslatorTranslate text direction)
   (translate get_option_from_string LANGUAGES translator_translate
              message) ->
direction = lit "en" /\ text = replied_text message
/\ given (replied_text message) = true.
Proof.
intros Hsec. rewrite translate_after_options. unfold read_options.
rewrite Hsec. rewrite Hsec.
destruct (given (replied_text message)); cbn [negb andb].
- intros [H|[H|[]]]; [|discriminate]. injection H as <- <-.
  repeat split.
- intros [H|[]]. discriminate.
Qed.

End More.

Lemma translate_call_with_text_witness :
  lit "fr-en" = direction_of (Some (lit "fr")) (Some (lit "en"))
  /\ Some (lit "bonjour")
     = (if given (replied_text {| text := lit "/translate -lf fr bonjour";
                                  reply_to_message := None |})
        then replied_text {| text := lit "/translate -lf fr bonjour";
                             reply_to_message := None |}
        else Some (lit "bonjour")).
Proof.
  exact (translate_call_with_text
           leading_flag three_languages echo
           {| text := lit "/translate -lf fr bonjour";
              reply_to_message := None |}
           (lit "-lf fr bonjour") (Some (lit "fr")) (lit "bonjour")
           None (lit "bonjour") (Some (lit "bonjour")) (lit "fr-en")
           eq_refl ltac:(discriminate) eq_refl eq_refl
           (or_introl eq_refl)).
Defined.

Lemma translate_call_reply_only_witness :
  lit "en" = lit "en"
  /\ Some (lit "hola")
     = replied_text {| text := lit "/translate";
                       reply_to_message := Some (Some (lit "hola")) |}
  /\ given (replied_text {| text := lit "/translate";
                            reply_to_message := Some (Some (lit "hola")) |})
     = true.
Proof.
  exact (translate_call_reply_only
           leading_flag three_languages echo
           {| text := lit "/translate";
              reply_to_message := Some (Some (lit "hola")) |}
           (Some (lit "hola")) (lit "en") eq_refl (or_introl eq_refl)).
Defined.

End TranslateFacts.
